(** * Forgeon: the emoji-to-icon replacement pass of [emoji-replacements.py]

    The script reads [script.js], replaces a fixed table of emoji by
    [<img>] markup, handles the mechanics symbol by four [re.sub] rules and
    a final catch-all, writes the file back and prints a size report.

    A Python [str] is a sequence of Unicode code points: it is modelled as
    a list of code points ([N]); the file on disk is a list of bytes. *)

From Stdlib Require Import Strings.String Strings.Ascii Strings.Byte.
From Stdlib Require Import List NArith ZArith Lia Bool Arith ZifyBool.
Import ListNotations.
Local Open Scope list_scope.

(** ** Text and bytes *)

Definition codepoint := N.
Definition str := list codepoint.
Definition bytes := list Byte.byte.

(** *** UTF-8, as the [utf-8] codec with [errors='strict'] *)

Module Utf8.

Definition continuation (b : N) : bool := ((128 <=? b) && (b <=? 191))%N.

Definition surrogate (c : N) : bool := ((55296 <=? c) && (c <=? 57343))%N.

(** Strict decoding: no overlong forms, no surrogates, nothing above
    U+10FFFF, no truncated sequence. *)
Fixpoint decode (bs : bytes) : option str :=
  match bs with
  | [] => Some []
  | b0 :: r0 =>
    let n0 := Byte.to_N b0 in
    if (n0 <? 128)%N then option_map (cons n0) (decode r0)
    else if ((194 <=? n0) && (n0 <=? 223))%N then
      match r0 with
      | b1 :: r1 =>
        let n1 := Byte.to_N b1 in
        if continuation n1
        then option_map (cons ((n0 - 192) * 64 + (n1 - 128))%N) (decode r1)
        else None
      | [] => None
      end
    else if ((224 <=? n0) && (n0 <=? 239))%N then
      match r0 with
      | b1 :: b2 :: r2 =>
        let n1 := Byte.to_N b1 in
        let n2 := Byte.to_N b2 in
        let c := ((n0 - 224) * 4096 + (n1 - 128) * 64 + (n2 - 128))%N in
        if continuation n1 && continuation n2 && (2048 <=? c)%N
           && negb (surrogate c)
        then option_map (cons c) (decode r2)
        else None
      | _ => None
      end
    else if ((240 <=? n0) && (n0 <=? 244))%N then
      match r0 with
      | b1 :: b2 :: b3 :: r3 =>
        let n1 := Byte.to_N b1 in
        let n2 := Byte.to_N b2 in
        let n3 := Byte.to_N b3 in
        let c := ((n0 - 240) * 262144 + (n1 - 128) * 4096
                  + (n2 - 128) * 64 + (n3 - 128))%N in
        if continuation n1 && continuation n2 && continuation n3
           && (65536 <=? c)%N && (c <=? 1114111)%N
        then option_map (cons c) (decode r3)
        else None
      | _ => None
      end
    else None
  end.

Definition byte_of (n : N) : Byte.byte :=
  match Byte.of_N n with Some b => b | None => Byte.x00 end.

(** The bytes of one code point; [None] for what the codec refuses to
    encode (a surrogate, or a value that is no code point). *)
Definition encode_char (c : codepoint) : option bytes :=
  if (c <? 128)%N then Some [byte_of c]
  else if (c <? 2048)%N then
    Some [byte_of (192 + c / 64); byte_of (128 + c mod 64)]%N
  else if (c <? 65536)%N then
    if surrogate c then None
    else Some [byte_of (224 + c / 4096); byte_of (128 + (c / 64) mod 64);
               byte_of (128 + c mod 64)]%N
  else if (c <=? 1114111)%N then
    Some [byte_of (240 + c / 262144); byte_of (128 + (c / 4096) mod 64);
          byte_of (128 + (c / 64) mod 64); byte_of (128 + c mod 64)]%N
  else None.

Fixpoint encode (s : str) : option bytes :=
  match s with
  | [] => Some []
  | c :: s' =>
    match encode_char c, encode s' with
    | Some bc, Some bs => Some (bc ++ bs)
    | _, _ => None
    end
  end.

End Utf8.

(** Source literals.  [lit] reads a literal of the script (the file is
    UTF-8, so a literal's bytes are decoded like the interpreter does). *)
Definition lit (s : string) : str :=
  match Utf8.decode (list_byte_of_string s) with
  | Some t => t
  | None => []
  end.

(** ** The [str] methods the script calls *)

(** [s.startswith(p)]. *)
Fixpoint startswith (p s : str) : bool :=
  match p, s with
  | [], _ => true
  | a :: p', b :: s' => (a =? b)%N && startswith p' s'
  | _ :: _, [] => false
  end.

(** The scan of [str.replace] and [str.count]: leftmost match first, the
    next match is searched after the end of the previous one.  [skip] is
    the number of characters of the current match still to be passed. *)
Fixpoint replace_from (old new : str) (skip : nat) (s : str) : str :=
  match s with
  | [] => []
  | c :: s' =>
    match skip with
    | S k => replace_from old new k s'
    | O =>
      if startswith old s
      then new ++ replace_from old new (pred (length old)) s'
      else c :: replace_from old new 0 s'
    end
  end.

(** [s.replace(old, new)]; an empty [old] matches before every character
    and at the end. *)
Definition replace (old new s : str) : str :=
  match old with
  | [] => new ++ flat_map (fun c => c :: new) s
  | _ :: _ => replace_from old new 0 s
  end.

Fixpoint count_from (sub : str) (skip : nat) (s : str) : nat :=
  match s with
  | [] => 0
  | _ :: s' =>
    match skip with
    | S k => count_from sub k s'
    | O =>
      if startswith sub s
      then S (count_from sub (pred (length sub)) s')
      else count_from sub 0 s'
    end
  end.

(** [s.count(sub)]: the number of non-overlapping occurrences. *)
Definition count (sub s : str) : nat :=
  match sub with
  | [] => S (length s)
  | _ :: _ => count_from sub 0 s
  end.


(** ** The [re] calls of the script

    [re.sub(pattern, repl, string)] for the patterns of the literal
    fragment: ordinary characters and backslash-escaped punctuation.  The
    parser and the template expansion follow CPython's [re] module; [None]
    stands for an error of the module or a construct outside the fragment
    (a metacharacter, a class escape, a group reference). *)

Module Re.

Definition backslash : codepoint := 92%N.

(** The parser's special characters. *)
Definition special (c : codepoint) : bool :=
  existsb (N.eqb c) (lit ".\[{()*+?^$|").

Definition ascii_letter (c : codepoint) : bool :=
  (((65 <=? c) && (c <=? 90)) || ((97 <=? c) && (c <=? 122)))%N.

Definition digit (c : codepoint) : bool := ((48 <=? c) && (c <=? 57))%N.

(** The literal a pattern denotes: a backslash before a character that is
    neither a letter nor a digit makes that character ordinary. *)
Fixpoint literal_of_pattern (p : str) : option str :=
  match p with
  | [] => Some []
  | c :: p' =>
    if (c =? backslash)%N then
      match p' with
      | e :: p'' =>
        if ascii_letter e || digit e then None
        else option_map (cons e) (literal_of_pattern p'')
      | [] => None
      end
    else if special c then None
    else option_map (cons c) (literal_of_pattern p')
  end.

(** The escapes a replacement template knows: a, b, f, n, r, t, v and the
    backslash itself. *)
Definition escapes (c : codepoint) : option codepoint :=
  if (c =? 97)%N then Some 7%N
  else if (c =? 98)%N then Some 8%N
  else if (c =? 102)%N then Some 12%N
  else if (c =? 110)%N then Some 10%N
  else if (c =? 114)%N then Some 13%N
  else if (c =? 116)%N then Some 9%N
  else if (c =? 118)%N then Some 11%N
  else if (c =? backslash)%N then Some backslash
  else None.

(** Template expansion without group references: a known escape is
    replaced, an unknown escape of a letter is an error, and any other
    backslash pair is left as it is, backslash included. *)
Fixpoint expand_template (t : str) : option str :=
  match t with
  | [] => Some []
  | c :: t' =>
    if (c =? backslash)%N then
      match t' with
      | e :: t'' =>
        if (e =? 103)%N || digit e then None
        else match escapes e with
             | Some x => option_map (cons x) (expand_template t'')
             | None =>
               if ascii_letter e then None
               else option_map (fun r => backslash :: e :: r)
                               (expand_template t'')
             end
      | [] => None
      end
    else option_map (cons c) (expand_template t')
  end.

(** All non-overlapping matches of a literal, leftmost first, are replaced
    by the expanded template: the scan of [replace]. *)
Definition sub (pattern repl string : str) : option str :=
  match literal_of_pattern pattern, expand_template repl with
  | Some p, Some r => Some (replace p r string)
  | _, _ => None
  end.

End Re.

(** ** The script *)

(** What the script prints, one constructor per [print] call. *)
Inductive line : Type :=
| Reading
| Replaced (count : nat) (emoji : str)
| ReplacedRemaining (remaining_mechanics : nat)
| Writing
| Done (original_length new_length : nat)
| Difference (d : Z)
| Complete
| Skipped.

(** A double quote, as a plain string literal holds it, and as a raw
    string literal delimited by double quotes holds it: with its
    backslash. *)
Definition dquote : str := [34%N].
Definition raw_dquote : str := [Re.backslash; 34%N].

(** The text of an image tag, with [q] where the literal has a double
    quote. *)
Definition img_tag (q : str) (path size : string) : str :=
  lit "<img src=" ++ q ++ lit path ++ q
  ++ lit " alt=" ++ q ++ q
  ++ lit " width=" ++ q ++ lit size ++ q
  ++ lit " height=" ++ q ++ lit size ++ q
  ++ lit " style=" ++ q ++ lit "vertical-align: middle;" ++ q ++ lit ">".

Definition svg14 (path : string) : str := img_tag dquote path "14".

Definition replacements : list (str * str) :=
  [ (lit "🔗", svg14 "icons/misc/link.svg");
    (lit "📌", svg14 "icons/status/pin.svg");
    (lit "💾", svg14 "icons/actions/save.svg");
    (lit "📥", svg14 "icons/actions/download.svg");
    (lit "📊", svg14 "icons/misc/chart-line-up.svg");
    (lit "📈", svg14 "icons/misc/chart-line-up.svg");
    (lit "📉", svg14 "icons/misc/chart-line-down.svg");
    (lit "💡", svg14 "icons/misc/lightbulb.svg");
    (lit "📂", svg14 "icons/misc/folder.svg");
    (lit "📋", svg14 "icons/misc/checklist.svg");
    (lit "🧮", svg14 "icons/misc/calculator.svg");
    (lit "🎯", svg14 "icons/misc/gameplay.svg");
    (lit "⚔️", svg14 "icons/misc/combat.svg");
    (lit "✏️", svg14 "icons/actions/pencil.svg");
    (lit "🗑️", svg14 "icons/actions/trash.svg");
    (lit "✨", svg14 "icons/misc/sparkles.svg");
    (lit "📍", svg14 "icons/story/location.svg");
    (lit "👥", svg14 "icons/misc/user.svg");
    (lit "⏱️", svg14 "icons/misc/calendar.svg");
    (lit "💭", svg14 "icons/misc/thought-bubble.svg");
    (lit "➕", svg14 "icons/actions/add.svg");
    (lit "➖", svg14 "icons/misc/subtract.svg");
    (lit "⚖️", img_tag dquote "icons/misc/scales-balance.svg" "16");
    (lit "🖥️", svg14 "icons/misc/ui.svg");
    (lit "⚛️", svg14 "icons/misc/physics.svg") ].

(** The mechanics symbol and the markup of the final [replace]. *)
Definition mechanics : str := lit "⚙️".
Definition mechanics_svg : str := svg14 "icons/navigation/mechanics.svg".

(** The image tag as the raw templates of the [re.sub] calls spell it. *)
Definition mechanics_raw : str :=
  img_tag raw_dquote "icons/navigation/mechanics.svg" "14".

(** The four [re.sub] calls: (pattern, replacement template). *)
Definition icon_rule : str * str :=
  (lit "icon: '⚙️'",
   lit "icon: '" ++ mechanics_raw ++ lit "'").

Definition mechanic_rule : str * str :=
  (lit "mechanic: '⚙️ Mechanics'",
   lit "mechanic: '" ++ mechanics_raw ++ lit " Mechanics'").

Definition instance_rule : str * str :=
  (lit ": '⚙️ Instance</span>'",
   lit ": '" ++ mechanics_raw ++ lit " Instance</span>'").

Definition typeIcon_rule : str * str :=
  (lit "const typeIcon = cls\.classType === 'character' \? '🎭' : '⚙️';",
   lit "const typeIcon = cls.classType === 'character' ? '🎭' : '"
   ++ mechanics_raw ++ lit "';").

Definition mechanics_rules : list (str * str) :=
  [icon_rule; mechanic_rule; instance_rule; typeIcon_rule].

(** The symbols the script leaves alone, as its comment and its last
    [print] list them. *)
Definition skipped : list str :=
  [ lit "🎭"; lit "💥"; lit "⚠️"; lit "✅"; lit "🔴"; lit "🟠"; lit "🟡";
    lit "🟢"; lit "🥇"; lit "🥈"; lit "🥉" ].

(** The state of the run: the buffer [content] and the lines printed. *)
Definition state : Type := (str * list line)%type.

(** One turn of the loop over [replacements]. *)
Definition simple_step (st : state) (r : str * str) : state :=
  let '(content, out) := st in
  let '(emoji, svg) := r in
  let count := count emoji content in
  if 0 <? count
  then (replace emoji svg content, out ++ [Replaced count emoji])
  else (content, out).

Definition simple_replacements (st : state) : state :=
  fold_left simple_step replacements st.

(** The [re.sub] calls, in order; an error of [re] ends the run. *)
Fixpoint constrained (rules : list (str * str)) (content : str)
  : option str :=
  match rules with
  | [] => Some content
  | (pattern, repl) :: rules' =>
    match Re.sub pattern repl content with
    | Some content' => constrained rules' content'
    | None => None
    end
  end.

(** The replacement of what remains of the mechanics symbol. *)
Definition catch_all (st : state) : state :=
  let '(content, out) := st in
  let remaining_mechanics := count mechanics content in
  if 0 <? remaining_mechanics
  then (replace mechanics mechanics_svg content,
        out ++ [ReplacedRemaining remaining_mechanics])
  else (content, out).

(** Everything between the read and the write. *)
Definition transform_state (st : state) : option state :=
  let '(content, out) := simple_replacements st in
  match constrained mechanics_rules content with
  | Some content' => Some (catch_all (content', out))
  | None => None
  end.

Definition transform (content : str) : option str :=
  option_map fst (transform_state (content, [])).

(** ** The run on a file system *)

(** What the run depends on: the bytes of [script.js] ([None] when the
    file does not exist), whether it may be opened for reading and for
    writing, the platform's line separator, the characters beyond ASCII
    that the encoding of the console has ([print] raises
    [UnicodeEncodeError] on any other), and whether writing the buffer
    fails, on a full disk say, and after how many bytes. *)
Record world : Type := {
  disk : option bytes;
  readable : bool;
  writable : bool;
  linesep : str;
  console : codepoint -> bool;
  write_fault : option nat
}.

Inductive status : Type :=
  Finished | ReadError | ReError | WriteError | PrintError.

(** [written] lists the buffers a write has put into the file in full. *)
Record outcome : Type := {
  final_disk : option bytes;
  stdout : list line;
  exit : status;
  written : list bytes
}.

(** Text mode with the default [newline]: on input every line ending is
    turned into a line feed. *)
Fixpoint universal_newlines (s : str) : str :=
  match s with
  | [] => []
  | c :: s' =>
    if (c =? 13)%N then
      10%N :: match s' with
              | d :: s'' =>
                if (d =? 10)%N then universal_newlines s''
                else universal_newlines s'
              | [] => []
              end
    else c :: universal_newlines s'
  end.

(** On output every line feed becomes the platform's separator. *)
Definition output_newlines (sep : str) (s : str) : str :=
  flat_map (fun c => if (c =? 10)%N then sep else [c]) s.

(** [open('script.js', 'r', encoding='utf-8')] and [f.read()]. *)
Definition read_text (w : world) : option str :=
  match disk w with
  | None => None
  | Some bs =>
    if readable w then option_map universal_newlines (Utf8.decode bs)
    else None
  end.

(** The characters beyond ASCII in the text of a line: the symbol a
    replacement is reported for, the mechanics symbol, and the symbols
    the last [print] lists. *)
Definition symbols_printed (l : line) : str :=
  match l with
  | Replaced _ emoji => emoji
  | ReplacedRemaining _ => mechanics
  | Skipped => concat skipped
  | Reading | Writing | Done _ _ | Difference _ | Complete => []
  end.

(** [print] succeeds when the console has every character of the line;
    it has the ASCII ones. *)
Definition printable (console : codepoint -> bool) (l : line) : bool :=
  forallb (fun c => (c <? 128)%N || console c) (symbols_printed l).

(** What reaches the console of a sequence of [print] calls: the lines
    before the first one that raises. *)
Fixpoint printed (console : codepoint -> bool) (ls : list line)
  : list line :=
  match ls with
  | [] => []
  | l :: ls' =>
    if printable console l then l :: printed console ls' else []
  end.

(** The whole script.  A [print] that raises ends the run: before the
    file is opened for writing when it is one of the progress lines,
    after the write when it is the last line.  Opening for writing
    truncates the file, so a buffer the codec refuses leaves it empty,
    and a write that fails leaves the bytes that were written before. *)
Definition main (w : world) : outcome :=
  match read_text w with
  | None =>
    {| final_disk := disk w; stdout := [Reading]; exit := ReadError;
       written := [] |}
  | Some content =>
    let original_length := length content in
    match transform_state (content, [Reading]) with
    | None =>
      {| final_disk := disk w; stdout := [Reading]; exit := ReError;
         written := [] |}
    | Some (content', out) =>
      let progress := out ++ [Writing] in
      if forallb (printable (console w)) progress then
        if writable w then
          match Utf8.encode (output_newlines (linesep w) content') with
          | Some buffer =>
            match write_fault w with
            | None =>
              let new_length := length content' in
              let summary := [Done original_length new_length;
                              Difference (Z.of_nat new_length
                                          - Z.of_nat original_length);
                              Complete; Skipped] in
              {| final_disk := Some buffer;
                 stdout := progress ++ printed (console w) summary;
                 exit := if forallb (printable (console w)) summary
                         then Finished else PrintError;
                 written := [buffer] |}
            | Some n =>
              {| final_disk := Some (firstn n buffer); stdout := progress;
                 exit := WriteError; written := [] |}
            end
          | None =>
            {| final_disk := Some []; stdout := progress;
               exit := WriteError; written := [] |}
          end
        else
          {| final_disk := disk w; stdout := progress;
             exit := WriteError; written := [] |}
      else
        {| final_disk := disk w; stdout := printed (console w) progress;
           exit := PrintError; written := [] |}
    end
  end.

(** The number of bytes of a text in UTF-8. *)
Definition utf8_length (s : str) : option nat :=
  option_map (@length Byte.byte) (Utf8.encode s).

(** ** The pass as a list of literal replacements *)

(** A step replaces every occurrence of [fst] by [snd]. *)
Definition step : Type := (str * str)%type.

Definition run_steps (steps : list step) (s : str) : str :=
  fold_left (fun content '(old, new) => replace old new content) steps s.

(** The literal a rule of [mechanics_rules] looks for and the text it
    puts there, as [re] reads them. *)
Definition literal_rule (r : str * str) : option step :=
  match Re.literal_of_pattern (fst r), Re.expand_template (snd r) with
  | Some p, Some t => Some (p, t)
  | _, _ => None
  end.

Definition icon_literal : str := lit "icon: '⚙️'".
Definition mechanic_literal : str := lit "mechanic: '⚙️ Mechanics'".
Definition instance_literal : str := lit ": '⚙️ Instance</span>'".
Definition typeIcon_literal : str :=
  lit "const typeIcon = cls.classType === 'character' ? '🎭' : '⚙️';".

Definition constrained_steps : list step :=
  [ (icon_literal, snd icon_rule);
    (mechanic_literal, snd mechanic_rule);
    (instance_literal, snd instance_rule);
    (typeIcon_literal, snd typeIcon_rule) ].

Definition catch_all_step : step := (mechanics, mechanics_svg).

Definition pass : list step :=
  replacements ++ constrained_steps ++ [catch_all_step].

(** ** Decidable conditions on patterns

    The properties of the pass rest on how its literals can overlap;
    these tests are evaluated on the table. *)

Definition nonempty (s : str) : bool :=
  match s with [] => false | _ :: _ => true end.

Fixpoint str_eqb (a b : str) : bool :=
  match a, b with
  | [], [] => true
  | x :: a', y :: b' => (x =? y)%N && str_eqb a' b'
  | _, _ => false
  end.

(** One of the two is a prefix of the other. *)
Definition comparable (a b : str) : bool :=
  startswith a b || startswith b a.

(** No non-empty suffix of [w] is comparable with [x]: placed anywhere in
    a text, [w] neither contains the start of an occurrence of [x] nor
    ends inside one. *)
Fixpoint clash_free (w x : str) : bool :=
  match w with
  | [] => true
  | _ :: w' => negb (comparable w x) && clash_free w' x
  end.

Definition proper_prefix (a e : str) : bool :=
  startswith a e && (length a <? length e).

(** No non-empty suffix of [a] is a proper prefix of [e]: an occurrence
    of [e] that starts in [a] ends in [a]. *)
Fixpoint no_dangling (a e : str) : bool :=
  match a with
  | [] => true
  | _ :: a' => negb (proper_prefix a e) && no_dangling a' e
  end.

(** Replacing [old] by [new] neither splits nor completes an occurrence
    of [e]. *)
Definition compat (e old new : str) : bool :=
  nonempty e && nonempty old
  && no_dangling new e && no_dangling old e
  && clash_free (tl e) old && clash_free (tl e) new.

(** Every step leaves the number of occurrences of [e] as it is. *)
Definition frame_ok (e : str) (steps : list step) : bool :=
  forallb (fun '(old, new) =>
             compat e old new && (count e old =? count e new)) steps.

(** A step removes its own pattern for good. *)
Definition self_ok (st : step) : bool :=
  let '(old, new) := st in
  compat old old new && (count old old =? 1) && (count old new =? 0).

(** Each pattern of [table] is removed by its step and not brought back
    by the steps that follow, those of [rest] included. *)
Fixpoint cleared (table rest : list step) : bool :=
  match table with
  | [] => true
  | (old, new) :: table' =>
    self_ok (old, new) && frame_ok old (table' ++ rest)
    && cleared table' rest
  end.

(** The occurrences of [m] a step adds for each occurrence it
    replaces. *)
Definition adds (m : str) (st : step) : nat := count m (snd st).

(** For the steps after [pre]: [m] does not occur in a pattern, and a
    step that inserts [m] looks for a pattern the steps before it left
    alone. *)
Fixpoint tally_ok (m : str) (pre steps : list step) : bool :=
  match steps with
  | [] => true
  | (old, new) :: rest =>
    compat m old new && (count m old =? 0)
    && (if count m new =? 0 then true else frame_ok old pre)
    && tally_ok m (pre ++ [(old, new)]) rest
  end.

(** The occurrences of [m] the steps insert into [s]. *)
Definition inserted (m : str) (steps : list step) (s : str) : nat :=
  fold_right (fun st acc => adds m st * count (fst st) s + acc) 0 steps.

(** The symbols a table maps to the markup [m]. *)
Definition symbols_in (table : list step) (m : str) : list str :=
  map fst (filter (fun st => str_eqb (snd st) m) table).

Definition symbols_of (m : str) : list str := symbols_in replacements m.

(** The occurrences in [s] of the symbols mapped to [m]. *)
Definition mapped_to (m : str) (s : str) : nat :=
  list_sum (map (fun emoji => count emoji s) (symbols_of m)).

(** In [table] a step adds [m] once if [m] is its markup and not
    otherwise; the steps of [rest] never add it. *)
Definition adds_ok (m : str) (table rest : list step) : bool :=
  forallb (fun st => adds m st =? (if str_eqb (snd st) m then 1 else 0))
          table
  && forallb (fun st => adds m st =? 0) rest.

(** [x] keeps clear of every occurrence of [old] whatever surrounds it,
    unless [x] is [old] itself. *)
Definition isolated (old x : str) : bool :=
  nonempty old && clash_free (tl old) x && clash_free x old.

(** What a piece [x] of the text has become after the steps, when every
    step either replaces it whole or passes it by. *)
Fixpoint track (steps : list step) (x : str) : option str :=
  match steps with
  | [] => Some x
  | (old, new) :: rest =>
    if str_eqb old x then
      if nonempty old && clash_free (tl old) old then track rest new
      else None
    else if isolated old x then track rest x
    else None
  end.

(** ** Particular texts and files *)

(** The markup the two chart symbols share. *)
Definition chart_up : str := svg14 "icons/misc/chart-line-up.svg".

(** A text with a backslash put before every double quote. *)
Definition backslashed (s : str) : str :=
  flat_map (fun c => if (c =? 34)%N then raw_dquote else [c]) s.

(** The mechanics rules as plain literal replacements that insert the
    markup of the catch-all: what the rules would be if the templates'
    quotes were plain double quotes. *)
Definition plain_quote_steps : list step :=
  [ (icon_literal, lit "icon: '" ++ mechanics_svg ++ lit "'");
    (mechanic_literal,
     lit "mechanic: '" ++ mechanics_svg ++ lit " Mechanics'");
    (instance_literal,
     lit ": '" ++ mechanics_svg ++ lit " Instance</span>'");
    (typeIcon_literal,
     lit "const typeIcon = cls.classType === 'character' ? '🎭' : '"
     ++ mechanics_svg ++ lit "';") ].

(** A console that has every character, as one in UTF-8, and one that
    has ASCII only. *)
Definition utf8_console : codepoint -> bool := fun _ => true.
Definition ascii_console : codepoint -> bool := fun _ => false.

(** A file that holds the link symbol three times and nothing else. *)
Definition three_links : world :=
  {| disk := Some (list_byte_of_string "🔗🔗🔗");
     readable := true; writable := true; linesep := [10%N];
     console := utf8_console; write_fault := None |}.

(** The same file where the console has ASCII only, and where the disk
    is full after five bytes. *)
Definition three_links_ascii : world :=
  {| disk := Some (list_byte_of_string "🔗🔗🔗");
     readable := true; writable := true; linesep := [10%N];
     console := ascii_console; write_fault := None |}.

Definition three_links_full : world :=
  {| disk := Some (list_byte_of_string "🔗🔗🔗");
     readable := true; writable := true; linesep := [10%N];
     console := utf8_console; write_fault := Some 5 |}.

(** A file of plain text with line feeds, on a platform whose line
    separator is the line feed. *)
Definition plain_file : world :=
  {| disk := Some (list_byte_of_string "const a = 1; // 🎭");
     readable := true; writable := true; linesep := [10%N];
     console := utf8_console; write_fault := None |}.

(** The same file where the console has ASCII only. *)
Definition plain_file_ascii : world :=
  {| disk := Some (list_byte_of_string "const a = 1; // 🎭");
     readable := true; writable := true; linesep := [10%N];
     console := ascii_console; write_fault := None |}.


(** ** What the run reports and how much the text grows *)

(** Every pattern of [steps] keeps its count through the steps before
    it, those of [pre] included. *)
Fixpoint independent (pre steps : list step) : bool :=
  match steps with
  | [] => true
  | st :: rest => frame_ok (fst st) pre && independent (pre ++ [st]) rest
  end.

(** The lines the loop prints for a document: one for each symbol of
    the table that occurs in it, in the order of the table. *)
Definition reported (table : list (str * str)) (d : str) : list line :=
  flat_map (fun '(emoji, _) =>
              if 0 <? count emoji d then [Replaced (count emoji d) emoji]
              else [])
           table.

(** The occurrences of the literals of the four rules. *)
Definition constrained_matches (d : str) : nat :=
  list_sum (map (fun st => count (fst st) d) constrained_steps).

(** The mechanics symbols the four rules leave to the last step. *)
Definition remaining (d : str) : nat :=
  count mechanics d - constrained_matches d.

Definition remaining_line (d : str) : list line :=
  if 0 <? remaining d then [ReplacedRemaining (remaining d)] else [].

(** For each step that takes one occurrence of [e] away, the
    occurrences of its pattern in [s]. *)
Definition removed (e : str) (steps : list step) (s : str) : nat :=
  list_sum (map (fun st => count e (fst st) * count (fst st) s) steps).

(** The steps after [pre] add no occurrence of [e], and each of them
    looks for a pattern the steps before it left alone. *)
Fixpoint drain_ok (e : str) (pre steps : list step) : bool :=
  match steps with
  | [] => true
  | (old, new) :: rest =>
    compat e old new && (count e new =? 0) && frame_ok old pre
    && drain_ok e (pre ++ [(old, new)]) rest
  end.

(** What the steps add to a size that is additive over concatenation,
    counted on the input. *)
Definition gain (size : str -> nat) (steps : list step) (d : str) : nat :=
  list_sum (map (fun st => count (fst st) d * (size (snd st) - size (fst st)))
                steps).

Definition growth (size : str -> nat) (d : str) : nat :=
  gain size (replacements ++ constrained_steps) d
  + remaining d * (size mechanics_svg - size mechanics).

(** No step makes the size smaller. *)
Definition grows (size : str -> nat) (steps : list step) : bool :=
  forallb (fun st => nonempty (fst st) && (size (fst st) <=? size (snd st)))
          steps.

(** The bytes of a code point in UTF-8. *)
Definition char_bytes (c : codepoint) : nat :=
  if (c <? 128)%N then 1
  else if (c <? 2048)%N then 2
  else if (c <? 65536)%N then 3
  else 4.

Definition byte_size (s : str) : nat := list_sum (map char_bytes s).

(** The code points the codec encodes. *)
Definition scalar (c : codepoint) : bool :=
  (c <=? 1114111)%N && negb (Utf8.surrogate c).

Definition ascii (c : codepoint) : bool := (c <? 128)%N.

(** The line separators of the platforms: a line feed, or a carriage
    return and a line feed. *)
Definition platform_linesep (sep : str) : Prop :=
  sep = [10%N] \/ sep = [13%N; 10%N].

(** The world a run leaves behind. *)
Definition after (w : world) : world :=
  {| disk := final_disk (main w); readable := readable w;
     writable := writable w; linesep := linesep w;
     console := console w; write_fault := write_fault w |}.

(** No pattern of the steps contains the character. *)
Definition foreign (c : codepoint) (steps : list step) : bool :=
  forallb (fun st => nonempty (fst st) && negb (existsb (N.eqb c) (fst st)))
          steps.

(** ** Predicates on the printed lines *)

(** The lines the run prints before the write. *)
Definition progress_line (l : line) : Prop :=
  match l with
  | Reading | Replaced _ _ | ReplacedRemaining _ => True
  | _ => False
  end.

(** What the summary holds when the sizes do not decrease. *)
Definition size_line_ok (l : line) : Prop :=
  match l with
  | Done original_length new_length => original_length <= new_length
  | Difference d => (0 <= d)%Z
  | _ => True
  end.

(** * Properties *)

Example lit_link : lit "🔗" = [128279%N].
Proof. reflexivity. Qed.

Example lit_combat : lit "⚔️" = [9876%N; 65039%N].
Proof. reflexivity. Qed.

Example replace_overlap :
  replace (lit "aa") (lit "b") (lit "aaaaa") = lit "bba".
Proof. reflexivity. Qed.

Example replace_empty : replace [] (lit "-") (lit "abc") = lit "-a-b-c-".
Proof. reflexivity. Qed.

Example count_overlap : count (lit "aa") (lit "aaaaa") = 2.
Proof. reflexivity. Qed.

Example newlines_in :
  universal_newlines (lit "a" ++ [13; 10; 13; 10; 13]%N ++ lit "b")
  = lit "a" ++ [10; 10; 10]%N ++ lit "b".
Proof. reflexivity. Qed.

(** ** Prefixes *)

Lemma startswith_nil_r (p : str) : startswith p [] = true -> p = [].
Proof. destruct p; simpl; congruence. Qed.

Lemma startswith_app (p r : str) : startswith p (p ++ r) = true.
Proof.
  induction p as [|a p IH]; simpl; [reflexivity|].
  now rewrite N.eqb_refl, IH.
Qed.

Lemma startswith_refl (p : str) : startswith p p = true.
Proof. rewrite <- (app_nil_r p) at 2. apply startswith_app. Qed.

Lemma startswith_split (p s : str) :
  startswith p s = true -> s = p ++ skipn (length p) s.
Proof.
  revert s; induction p as [|a p IH]; intros [|b s]; simpl; try congruence.
  intros H. apply andb_true_iff in H as [Hab Hp].
  apply N.eqb_eq in Hab. subst b. f_equal. now apply IH.
Qed.

Lemma startswith_iff (p s : str) :
  startswith p s = true <-> exists r, s = p ++ r.
Proof.
  split.
  - intros H. eexists. now apply startswith_split.
  - intros [r ->]. apply startswith_app.
Qed.

(** A prefix of [w ++ r] lies within [w] or covers it. *)
Lemma startswith_app_cases (p w r : str) :
  startswith p (w ++ r) = true -> comparable p w = true.
Proof.
  unfold comparable.
  revert w; induction p as [|a p IH]; intros w H; [reflexivity|].
  destruct w as [|b w]; [now rewrite orb_true_r|].
  simpl in *. apply andb_true_iff in H as [Hab Hp].
  rewrite Hab, (N.eqb_sym b a), Hab. simpl. now apply IH.
Qed.

Lemma comparable_sym (a b : str) : comparable a b = comparable b a.
Proof. unfold comparable. apply orb_comm. Qed.

Lemma startswith_length (p s : str) :
  startswith p s = true -> length p <= length s.
Proof.
  intros H. apply startswith_split in H. rewrite H, length_app. lia.
Qed.

Lemma startswith_antisym (a b : str) :
  startswith a b = true -> length b <= length a -> a = b.
Proof.
  revert b; induction a as [|x a IH]; intros [|y b]; simpl;
    try congruence; try lia.
  intros H Hl. apply andb_true_iff in H as [Hxy Hab].
  apply N.eqb_eq in Hxy. subst y. f_equal. apply IH; [assumption|lia].
Qed.

Lemma str_eqb_eq (a b : str) : str_eqb a b = true <-> a = b.
Proof.
  revert b; induction a as [|x a IH]; intros [|y b]; simpl;
    try (split; congruence).
  rewrite andb_true_iff, N.eqb_eq, IH. split.
  - now intros [-> ->].
  - intros E. injection E. auto.
Qed.

Lemma nonempty_iff (s : str) : nonempty s = true <-> s <> [].
Proof. destruct s; simpl; split; congruence. Qed.

(** ** The equations of the scan *)

Lemma replace_from_skip (old new : str) (k : nat) (s : str) :
  replace_from old new k s = replace_from old new 0 (skipn k s).
Proof.
  revert k; induction s as [|c s IH]; intros [|k]; try reflexivity.
  simpl replace_from at 1. now rewrite IH.
Qed.

Lemma count_from_skip (sub : str) (k : nat) (s : str) :
  count_from sub k s = count_from sub 0 (skipn k s).
Proof.
  revert k; induction s as [|c s IH]; intros [|k]; try reflexivity.
  simpl count_from at 1. now rewrite IH.
Qed.

Section Scan.

Variables old new : str.
Hypothesis old_nonempty : old <> [].

Lemma replace_nil : replace old new [] = [].
Proof. destruct old; [contradiction|reflexivity]. Qed.

Lemma replace_match (r : str) :
  replace old new (old ++ r) = new ++ replace old new r.
Proof.
  destruct old as [|a o] eqn:E; [contradiction|].
  unfold replace. simpl app. simpl replace_from.
  rewrite N.eqb_refl, startswith_app. simpl.
  rewrite replace_from_skip.
  now rewrite skipn_app, skipn_all, Nat.sub_diag.
Qed.

Lemma replace_miss (c : codepoint) (s : str) :
  startswith old (c :: s) = false ->
  replace old new (c :: s) = c :: replace old new s.
Proof.
  destruct old as [|a o] eqn:E; [contradiction|].
  intros H. unfold replace. simpl replace_from.
  simpl in H. now rewrite H.
Qed.

Lemma count_nil : count old [] = 0.
Proof. destruct old; [contradiction|reflexivity]. Qed.

Lemma count_match (r : str) : count old (old ++ r) = S (count old r).
Proof.
  destruct old as [|a o] eqn:E; [contradiction|].
  unfold count. simpl app. simpl count_from.
  rewrite N.eqb_refl, startswith_app. simpl.
  rewrite count_from_skip.
  now rewrite skipn_app, skipn_all, Nat.sub_diag.
Qed.

Lemma count_miss (c : codepoint) (s : str) :
  startswith old (c :: s) = false -> count old (c :: s) = count old s.
Proof.
  destruct old as [|a o] eqn:E; [contradiction|].
  intros H. unfold count. simpl count_from.
  simpl in H. now rewrite H.
Qed.

(** The three positions of a scan. *)
Lemma scan_cases (s : str) :
  s = [] \/ (exists r, s = old ++ r /\ length r < length s)
  \/ (exists c s', s = c :: s' /\ startswith old s = false).
Proof.
  destruct s as [|c s']; [now left|right].
  destruct (startswith old (c :: s')) eqn:H.
  - left. exists (skipn (length old) (c :: s')). split.
    + now apply startswith_split.
    + apply startswith_split in H.
      apply (f_equal (@length _)) in H. rewrite length_app in H.
      destruct old; [contradiction|]. simpl in *. lia.
  - right. now exists c, s'.
Qed.

(** Induction along the scan, with every shorter text at hand. *)
Lemma scan_ind (P : str -> Prop) :
  P [] ->
  (forall r, (forall t, length t <= length r -> P t) -> P (old ++ r)) ->
  (forall c s, startswith old (c :: s) = false ->
               (forall t, length t <= length s -> P t) -> P (c :: s)) ->
  forall s, P s.
Proof.
  intros Hnil Hmatch Hmiss s.
  remember (length s) as n eqn:En.
  revert s En. induction n as [n IH] using lt_wf_ind. intros s En.
  destruct (scan_cases s) as [->|[(r & -> & Hr)|(c & s' & -> & Hs)]].
  - exact Hnil.
  - apply Hmatch. intros t Ht. apply (IH (length t)); [lia|reflexivity].
  - apply Hmiss; [exact Hs|].
    intros t Ht. apply (IH (length t)); [simpl in En; lia|reflexivity].
Qed.

End Scan.

(** ** Passing over a piece of text *)

Lemma clash_free_head (w x r : str) :
  w <> [] -> clash_free w x = true -> startswith x (w ++ r) = false.
Proof.
  intros Hw H. destruct w as [|c w]; [contradiction|].
  simpl in H. apply andb_true_iff in H as [H _].
  apply negb_true_iff in H.
  destruct (startswith x ((c :: w) ++ r)) eqn:E; [|reflexivity].
  apply startswith_app_cases in E. rewrite comparable_sym in E. congruence.
Qed.

Lemma clash_free_tail (c : codepoint) (w x : str) :
  clash_free (c :: w) x = true -> clash_free w x = true.
Proof. simpl. intros H. now apply andb_true_iff in H. Qed.

Section Through.

Variables old new : str.
Hypothesis old_nonempty : old <> [].

(** The scan for [old] copies a piece that clashes with [old] nowhere. *)
Lemma replace_through (w r : str) :
  clash_free w old = true ->
  replace old new (w ++ r) = w ++ replace old new r.
Proof.
  induction w as [|c w IH]; intros H; [reflexivity|].
  simpl app. rewrite replace_miss; trivial.
  - f_equal. apply IH. now apply clash_free_tail in H.
  - now apply (clash_free_head (c :: w) old r).
Qed.

Lemma count_through (w r : str) :
  clash_free w old = true -> count old (w ++ r) = count old r.
Proof.
  induction w as [|c w IH]; intros H; [reflexivity|].
  simpl app. rewrite count_miss; trivial.
  - apply IH. now apply clash_free_tail in H.
  - now apply (clash_free_head (c :: w) old r).
Qed.

(** What the output of a replacement starts with, the input starts
    with, as far as the text clashes with [new] nowhere. *)
Lemma startswith_replace (t s : str) :
  clash_free t new = true ->
  startswith t (replace old new s) = true -> startswith t s = true.
Proof.
  revert s; induction t as [|d t IH]; intros s Hc H; [reflexivity|].
  destruct (scan_cases old old_nonempty s)
    as [->|[(r & -> & _)|(c & s' & -> & Hs)]].
  - now rewrite replace_nil in H.
  - rewrite replace_match in H by assumption.
    apply startswith_app_cases in H.
    simpl in Hc. apply andb_true_iff in Hc as [Hc _].
    apply negb_true_iff in Hc. congruence.
  - rewrite replace_miss in H by assumption.
    simpl in *. apply andb_true_iff in H as [Hdc Ht].
    rewrite Hdc. simpl. apply IH; [|assumption].
    now apply andb_true_iff in Hc.
Qed.

End Through.

(** ** Counting across a boundary *)

Lemma no_dangling_head (a e r : str) :
  a <> [] -> no_dangling a e = true ->
  startswith e (a ++ r) = true -> startswith e a = true.
Proof.
  intros Ha Hd H. destruct a as [|c a]; [contradiction|].
  simpl in Hd. apply andb_true_iff in Hd as [Hd _].
  apply negb_true_iff in Hd. unfold proper_prefix in Hd.
  apply startswith_app_cases in H. unfold comparable in H.
  apply orb_true_iff in H as [H|H]; [assumption|].
  rewrite H in Hd. simpl in Hd. apply Nat.ltb_ge in Hd.
  rewrite (startswith_antisym _ _ H Hd). apply startswith_refl.
Qed.

Lemma no_dangling_skip (w a e : str) :
  no_dangling (w ++ a) e = true -> no_dangling a e = true.
Proof.
  induction w as [|c w IH]; [trivial|].
  simpl. intros H. apply andb_true_iff in H as [_ H]. now apply IH.
Qed.

(** Occurrences of [e] on both sides of a boundary no occurrence
    crosses. *)
Lemma count_app (e a b : str) :
  e <> [] -> no_dangling a e = true ->
  count e (a ++ b) = count e a + count e b.
Proof.
  intros He. revert a.
  apply (scan_ind e He (fun a => no_dangling a e = true ->
                               count e (a ++ b) = count e a + count e b)).
  - intros _. now rewrite count_nil.
  - intros r IH Hd. rewrite <- app_assoc, !count_match by assumption.
    rewrite IH; [reflexivity|lia|]. now apply no_dangling_skip in Hd.
  - intros c s Hs IH Hd. simpl app.
    rewrite (count_miss e He c s Hs), count_miss; trivial.
    + apply IH; [lia|]. now apply (no_dangling_skip [c]) in Hd.
    + destruct (startswith e (c :: s ++ b)) eqn:E; [|reflexivity].
      apply (no_dangling_head (c :: s)) in E; congruence.
Qed.

(** ** Counting through a replacement *)

Lemma compat_parts (e old new : str) :
  compat e old new = true ->
  e <> [] /\ old <> [] /\ no_dangling new e = true
  /\ no_dangling old e = true /\ clash_free (tl e) old = true
  /\ clash_free (tl e) new = true.
Proof.
  unfold compat. rewrite !andb_true_iff, !nonempty_iff. tauto.
Qed.

(** Each replaced occurrence of [old] takes away the occurrences of [e]
    in [old] and brings those in [new]; nothing else changes. *)
Lemma count_replace (e old new : str) :
  compat e old new = true ->
  forall s,
    count e (replace old new s) + count e old * count old s
    = count e s + count e new * count old s.
Proof.
  intros Hc.
  destruct (compat_parts _ _ _ Hc) as (He & Ho & Hn1 & Ho1 & Ho2 & Hn2).
  apply (scan_ind old Ho).
  - rewrite replace_nil, !count_nil by assumption. lia.
  - intros r IH.
    rewrite replace_match, count_match by assumption.
    rewrite !count_app by assumption.
    specialize (IH r (le_n _)). nia.
  - intros c s Hs IH.
    rewrite replace_miss, (count_miss old Ho c s Hs) by assumption.
    destruct (startswith e (c :: s)) eqn:E.
    + apply startswith_iff in E as [r E].
      destruct e as [|x t]; [contradiction|].
      simpl in E. injection E as <- E. subst s. simpl tl in *.
      rewrite !replace_through, !count_through by assumption.
      change (c :: t ++ replace old new r)
        with ((c :: t) ++ replace old new r).
      change (c :: t ++ r) with ((c :: t) ++ r).
      rewrite !count_match by assumption.
      assert (Hl : length r <= length (t ++ r))
        by (rewrite length_app; lia).
      specialize (IH r Hl). lia.
    + rewrite (count_miss e He c s E), count_miss; trivial.
      * apply IH. lia.
      * destruct e as [|x t]; [contradiction|].
        simpl tl in *. simpl in *.
        destruct (x =? c)%N; [|reflexivity]. simpl in *.
        destruct (startswith t (replace old new s)) eqn:F; [|reflexivity].
        apply (startswith_replace old new Ho) in F; congruence.
Qed.

(** A replacement that keeps clear of [e] keeps its count. *)
Lemma count_replace_frame (e old new : str) :
  compat e old new = true -> count e old = count e new ->
  forall s, count e (replace old new s) = count e s.
Proof.
  intros Hc E s. pose proof (count_replace e old new Hc s) as H.
  rewrite E in H. lia.
Qed.

(** A replacement removes every occurrence of its pattern. *)
Lemma count_replace_self (old new : str) :
  self_ok (old, new) = true ->
  forall s, count old (replace old new s) = 0.
Proof.
  unfold self_ok. rewrite !andb_true_iff, !Nat.eqb_eq.
  intros [[Hc H1] H0] s.
  pose proof (count_replace old old new Hc s) as H.
  rewrite H1, H0 in H. lia.
Qed.

(** Without an occurrence there is nothing to replace. *)
Lemma replace_absent (old new s : str) :
  count old s = 0 -> replace old new s = s.
Proof.
  assert (Ho : old <> [] \/ old = []) by (destruct old; [now right|now left]).
  destruct Ho as [Ho| ->]; [|discriminate].
  revert s.
  apply (scan_ind old Ho
           (fun s => count old s = 0 -> replace old new s = s)).
  - intros _. now apply replace_nil.
  - intros r _. now rewrite count_match.
  - intros c s Hs IH H. rewrite count_miss in H by assumption.
    rewrite replace_miss by assumption. f_equal. now apply IH.
Qed.

(** The [if count > 0] of the script does not change what is computed. *)
Lemma guarded_replace (old new s : str) :
  (if 0 <? count old s then replace old new s else s) = replace old new s.
Proof.
  destruct (0 <? count old s) eqn:E; [reflexivity|].
  apply Nat.ltb_ge in E. symmetry. apply replace_absent. lia.
Qed.

(** [count] is zero exactly when the pattern occurs nowhere. *)
Lemma count_pos_occurs (p s : str) :
  p <> [] -> count p s <> 0 -> exists l r, s = l ++ p ++ r.
Proof.
  intros Hp. revert s.
  apply (scan_ind p Hp
           (fun s => count p s <> 0 -> exists l r, s = l ++ p ++ r)).
  - now rewrite count_nil.
  - intros r _ _. now exists [], r.
  - intros c s Hs IH H. rewrite count_miss in H by assumption.
    destruct (IH s (le_n _) H) as (l & r & ->). now exists (c :: l), r.
Qed.

Lemma occurs_count_pos (p l r : str) :
  p <> [] -> count p (l ++ p ++ r) <> 0.
Proof.
  intros Hp. induction l as [|c l IH].
  - simpl. now rewrite count_match.
  - simpl app.
    destruct (startswith p (c :: l ++ p ++ r)) eqn:E.
    + apply startswith_split in E. rewrite E. now rewrite count_match.
    + now rewrite count_miss.
Qed.

(** A text without [q] has no occurrence of a pattern that contains
    [q]. *)
Lemma count_zero_within (q a b s : str) :
  q <> [] -> count q s = 0 -> count (a ++ q ++ b) s = 0.
Proof.
  intros Hq H.
  destruct (Nat.eq_dec (count (a ++ q ++ b) s) 0) as [E|E]; [exact E|].
  apply count_pos_occurs in E as (l & r & ->).
  - exfalso. revert H.
    replace (l ++ (a ++ q ++ b) ++ r) with ((l ++ a) ++ q ++ (b ++ r))
      by now rewrite <- !app_assoc.
    now apply occurs_count_pos.
  - destruct a; [destruct q; [contradiction|]|]; discriminate.
Qed.

(** The length after a replacement. *)
Lemma length_replace (old new : str) :
  old <> [] ->
  forall s,
    length (replace old new s) + count old s * length old
    = length s + count old s * length new.
Proof.
  intros Ho. apply (scan_ind old Ho).
  - now rewrite replace_nil, count_nil.
  - intros r IH. rewrite replace_match, count_match by assumption.
    rewrite !length_app. specialize (IH r (le_n _)). lia.
  - intros c s Hs IH.
    rewrite replace_miss, count_miss by assumption.
    simpl. specialize (IH s (le_n _)). lia.
Qed.

(** ** The script computes the list of steps *)

Lemma run_steps_app (a b : list step) (s : str) :
  run_steps (a ++ b) s = run_steps b (run_steps a s).
Proof. apply fold_left_app. Qed.

Lemma run_steps_cons (st : step) (rest : list step) (s : str) :
  run_steps (st :: rest) s = run_steps rest (replace (fst st) (snd st) s).
Proof. now destruct st. Qed.

Lemma simple_loop_content (table : list (str * str)) (st : state) :
  fst (fold_left simple_step table st) = run_steps table (fst st).
Proof.
  revert st; induction table as [|[emoji svg] table IH]; intros [content out];
    [reflexivity|].
  simpl fold_left. rewrite IH. rewrite run_steps_cons. f_equal.
  unfold simple_step. simpl fst. simpl snd.
  destruct (0 <? count emoji content) eqn:E; [reflexivity|].
  apply Nat.ltb_ge in E. simpl fst. symmetry. apply replace_absent. lia.
Qed.

Lemma sub_literal (r : str * str) (p t s : str) :
  literal_rule r = Some (p, t) ->
  Re.sub (fst r) (snd r) s = Some (replace p t s).
Proof.
  unfold literal_rule, Re.sub.
  destruct (Re.literal_of_pattern (fst r)); [|discriminate].
  destruct (Re.expand_template (snd r)); [|discriminate].
  now intros [= -> ->].
Qed.

Lemma constrained_run (rules : list (str * str)) (steps : list step) :
  map literal_rule rules = map Some steps ->
  forall content, constrained rules content = Some (run_steps steps content).
Proof.
  revert steps; induction rules as [|[pattern repl] rules IH];
    intros [|[p t] steps] E content; try discriminate; [reflexivity|].
  simpl in E. injection E as E1 E2.
  simpl constrained.
  pose proof (sub_literal (pattern, repl) p t content E1) as Hs.
  simpl in Hs. rewrite Hs.
  rewrite run_steps_cons. now apply IH.
Qed.

Lemma mechanics_rules_literal :
  map literal_rule mechanics_rules = map Some constrained_steps.
Proof. vm_compute. reflexivity. Qed.

Lemma catch_all_content (st : state) :
  fst (catch_all st) = replace mechanics mechanics_svg (fst st).
Proof.
  destruct st as [content out]. unfold catch_all. cbn [fst].
  destruct (0 <? count mechanics content) eqn:E; [reflexivity|].
  apply Nat.ltb_ge in E. cbn [fst]. symmetry. apply replace_absent. lia.
Qed.

(** The run never fails, and its buffer is the result of the steps. *)
Lemma transform_state_run (st : state) :
  exists out,
    transform_state st = Some (run_steps pass (fst st), out).
Proof.
  unfold transform_state, simple_replacements.
  pose proof (simple_loop_content replacements st) as H.
  destruct (fold_left simple_step replacements st) as [content out].
  cbn [fst] in H.
  rewrite (constrained_run mechanics_rules constrained_steps
             mechanics_rules_literal).
  pose proof (catch_all_content
                (run_steps constrained_steps content, out)) as Hc.
  destruct (catch_all (run_steps constrained_steps content, out))
    as [content' out'].
  cbn [fst] in Hc.
  exists out'. f_equal. f_equal.
  unfold pass. rewrite !run_steps_app. rewrite <- H, Hc. reflexivity.
Qed.

Lemma transform_run (content : str) :
  transform content = Some (run_steps pass content).
Proof.
  unfold transform.
  destruct (transform_state_run (content, [])) as [out E].
  rewrite E. reflexivity.
Qed.

(** ** Counts along the steps *)

Lemma frame_steps (e : str) (steps : list step) :
  frame_ok e steps = true ->
  forall s, count e (run_steps steps s) = count e s.
Proof.
  induction steps as [|[old new] steps IH]; intros H s; [reflexivity|].
  simpl in H. apply andb_true_iff in H as [H Hrest].
  apply andb_true_iff in H as [Hc He]. apply Nat.eqb_eq in He.
  rewrite run_steps_cons. simpl fst. simpl snd.
  rewrite IH by assumption. now apply count_replace_frame.
Qed.

Lemma frame_ok_app (e : str) (a b : list step) :
  frame_ok e (a ++ b) = frame_ok e a && frame_ok e b.
Proof. apply forallb_app. Qed.

(** After the steps no pattern of a cleared table occurs. *)
Lemma cleared_steps (table rest : list step) :
  cleared table rest = true ->
  forall old new s,
    In (old, new) table -> count old (run_steps (table ++ rest) s) = 0.
Proof.
  induction table as [|[o n] table IH]; intros H old new s Hin;
    [contradiction|].
  simpl in H. apply andb_true_iff in H as [H Hcl].
  apply andb_true_iff in H as [Hself Hframe].
  simpl app. rewrite run_steps_cons. simpl fst. simpl snd.
  destruct Hin as [[= <- <-]|Hin].
  - rewrite frame_steps by assumption. now apply count_replace_self.
  - now apply (IH Hcl old new).
Qed.

(** Steps whose patterns do not occur change nothing. *)
Lemma run_absent (steps : list step) (s : str) :
  (forall st, In st steps -> count (fst st) s = 0) ->
  run_steps steps s = s.
Proof.
  induction steps as [|st steps IH]; intros H; [reflexivity|].
  rewrite run_steps_cons, replace_absent by (apply H; now left).
  apply IH. intros st' Hin. apply H. now right.
Qed.

(** Steps that put a longer text for a shorter one do not shorten. *)
Lemma length_steps (steps : list step) :
  forallb (fun '(old, new) => nonempty old && (length old <? length new))
          steps = true ->
  forall s, length s <= length (run_steps steps s).
Proof.
  induction steps as [|[old new] steps IH]; intros H s; [apply le_n|].
  simpl in H. apply andb_true_iff in H as [H Hrest].
  apply andb_true_iff in H as [Ho Hlt].
  apply nonempty_iff in Ho. apply Nat.ltb_lt in Hlt.
  rewrite run_steps_cons. simpl fst. simpl snd.
  etransitivity; [|now apply IH].
  pose proof (length_replace old new Ho s). nia.
Qed.

(** ** Occurrences of a markup string *)

Lemma tally_steps (m : str) (steps : list step) :
  forall pre,
    tally_ok m pre steps = true ->
    forall s,
      count m (run_steps steps (run_steps pre s))
      = count m (run_steps pre s) + inserted m steps s.
Proof.
  induction steps as [|[old new] rest IH]; intros pre H s.
  - simpl. lia.
  - simpl in H. apply andb_true_iff in H as [H Hrest].
    apply andb_true_iff in H as [H Hsrc].
    apply andb_true_iff in H as [Hc H0]. apply Nat.eqb_eq in H0.
    rewrite run_steps_cons. cbn [fst snd].
    pose proof (run_steps_app pre [(old, new)] s) as Es.
    change (run_steps [(old, new)] (run_steps pre s))
      with (replace old new (run_steps pre s)) in Es.
    rewrite <- Es, (IH _ Hrest s), Es.
    pose proof (count_replace m old new Hc (run_steps pre s)) as E.
    rewrite H0 in E.
    unfold inserted. cbn [fold_right fst].
    change (adds m (old, new)) with (count m new).
    destruct (count m new =? 0) eqn:Hn.
    + apply Nat.eqb_eq in Hn. rewrite Hn in *. lia.
    + rewrite (frame_steps old pre Hsrc s) in E. lia.
Qed.

Lemma inserted_none (m : str) (rest : list step) (s : str) :
  forallb (fun st => adds m st =? 0) rest = true ->
  inserted m rest s = 0.
Proof.
  induction rest as [|st rest IH]; intros H; [reflexivity|].
  simpl in H. apply andb_true_iff in H as [H0 H].
  apply Nat.eqb_eq in H0. unfold inserted. cbn [fold_right].
  rewrite H0. fold (inserted m rest s). rewrite IH by assumption. lia.
Qed.

Lemma inserted_symbols (m : str) (table rest : list step) (s : str) :
  adds_ok m table rest = true ->
  inserted m (table ++ rest) s
  = list_sum (map (fun emoji => count emoji s) (symbols_in table m)).
Proof.
  unfold adds_ok. rewrite andb_true_iff. intros [Ht Hr].
  induction table as [|st table IH].
  - now apply inserted_none.
  - simpl in Ht. apply andb_true_iff in Ht as [H1 Ht].
    apply Nat.eqb_eq in H1.
    unfold inserted. cbn [app fold_right].
    fold (inserted m (table ++ rest) s). rewrite (IH Ht), H1.
    unfold symbols_in. cbn [filter].
    destruct (str_eqb (snd st) m); cbn [map]; unfold list_sum;
      cbn [fold_right]; lia.
Qed.

(** ** A literal amid arbitrary text *)

Lemma clash_free_suffix (w x : str) :
  clash_free w x = true ->
  forall u v, w = u ++ v -> v <> [] -> comparable v x = false.
Proof.
  intros H u. revert w H. induction u as [|c u IH]; intros w H v -> Hv.
  - destruct v as [|d v]; [contradiction|].
    simpl in H. apply andb_true_iff in H as [H _].
    now apply negb_true_iff in H.
  - apply (IH (u ++ v)); trivial. now apply clash_free_tail in H.
Qed.

Lemma startswith_over (p v y : str) :
  startswith p (v ++ y) = true ->
  startswith p v = true
  \/ exists w, w <> [] /\ p = v ++ w /\ startswith w y = true.
Proof.
  revert p; induction v as [|c v IH]; intros p H.
  - destruct p as [|a p]; [now left|right].
    exists (a :: p). repeat split; [discriminate|assumption].
  - destruct p as [|a p]; [now left|].
    simpl in H. apply andb_true_iff in H as [Hac H].
    apply N.eqb_eq in Hac. subst c.
    destruct (IH p H) as [Hl|(w & Hw & -> & Hs)].
    + left. simpl. now rewrite N.eqb_refl.
    + right. now exists w.
Qed.

(** An occurrence of [old] that starts before [x] ends before [x]. *)
Lemma straddle_free (old x v b : str) :
  clash_free (tl old) x = true -> v <> [] ->
  startswith old (v ++ x ++ b) = true -> startswith old v = true.
Proof.
  intros Hc Hv H.
  destruct (startswith_over old v (x ++ b) H) as [Hl|(w & Hw & -> & Hs)];
    [assumption|].
  destruct v as [|c v]; [contradiction|]. simpl tl in Hc.
  apply startswith_app_cases in Hs.
  rewrite (clash_free_suffix _ _ Hc v w eq_refl Hw) in Hs. discriminate.
Qed.

Lemma replace_split (old new rest : str) :
  old <> [] ->
  forall a,
    (forall u v, a = u ++ v -> v <> [] ->
                 startswith old (v ++ rest) = true ->
                 startswith old v = true) ->
    replace old new (a ++ rest)
    = replace old new a ++ replace old new rest.
Proof.
  intros Ho.
  apply (scan_ind old Ho
           (fun a =>
              (forall u v, a = u ++ v -> v <> [] ->
                           startswith old (v ++ rest) = true ->
                           startswith old v = true) ->
              replace old new (a ++ rest)
              = replace old new a ++ replace old new rest)).
  - intros _. now rewrite replace_nil.
  - intros r IH H. rewrite <- app_assoc, !replace_match by assumption.
    rewrite IH; [now rewrite app_assoc|apply le_n|].
    intros u v -> Hv. apply (H (old ++ u) v); trivial.
    now rewrite app_assoc.
  - intros c s Hs IH H. simpl app.
    rewrite (replace_miss old new Ho c s Hs), replace_miss; trivial.
    + simpl. f_equal. apply IH; [apply le_n|].
      intros u v -> Hv. now apply (H (c :: u) v).
    + destruct (startswith old (c :: s ++ rest)) eqn:E; [|reflexivity].
      apply (H [] (c :: s)) in E; [congruence|reflexivity|discriminate].
Qed.

(** A piece every occurrence of [old] keeps clear of is copied. *)
Lemma replace_isolated (old new x a b : str) :
  isolated old x = true ->
  replace old new (a ++ x ++ b)
  = replace old new a ++ x ++ replace old new b.
Proof.
  unfold isolated. rewrite !andb_true_iff, nonempty_iff.
  intros [[Ho H1] H2].
  rewrite replace_split; trivial.
  - now rewrite replace_through.
  - intros u v _. now apply straddle_free.
Qed.

(** An occurrence of [old] is replaced where it stands. *)
Lemma replace_own (old new a b : str) :
  old <> [] -> clash_free (tl old) old = true ->
  replace old new (a ++ old ++ b)
  = replace old new a ++ new ++ replace old new b.
Proof.
  intros Ho H.
  rewrite replace_split; trivial.
  - now rewrite replace_match.
  - intros u v _. now apply straddle_free.
Qed.

Lemma track_steps (steps : list step) :
  forall x y,
    track steps x = Some y ->
    forall a b,
      run_steps steps (a ++ x ++ b)
      = run_steps steps a ++ y ++ run_steps steps b.
Proof.
  induction steps as [|[old new] rest IH]; intros x y H a b.
  - injection H as <-. reflexivity.
  - rewrite !run_steps_cons. cbn [fst snd]. cbn [track] in H.
    destruct (str_eqb old x) eqn:E.
    + apply str_eqb_eq in E. subst x.
      destruct (nonempty old && clash_free (tl old) old) eqn:F;
        [|discriminate].
      apply andb_true_iff in F as [Ho Hc]. apply nonempty_iff in Ho.
      rewrite replace_own by assumption. now apply IH.
    + destruct (isolated old x) eqn:F; [|discriminate].
      rewrite replace_isolated by assumption. now apply IH.
Qed.

(** ** What the table satisfies *)

Lemma replacements_cleared :
  cleared replacements (constrained_steps ++ [catch_all_step]) = true.
Proof. vm_compute. reflexivity. Qed.

Lemma catch_all_self : self_ok catch_all_step = true.
Proof. vm_compute. reflexivity. Qed.

Lemma skipped_framed :
  forallb (fun e => frame_ok e pass) skipped = true.
Proof. vm_compute. reflexivity. Qed.

Lemma pass_lengthens :
  forallb (fun '(old, new) => nonempty old && (length old <? length new))
          pass = true.
Proof. vm_compute. reflexivity. Qed.

Lemma mechanics_nonempty : mechanics <> [].
Proof. discriminate. Qed.

(** Every constrained literal contains the mechanics symbol. *)
Lemma constrained_contains_mechanics (st : step) :
  In st constrained_steps ->
  exists a b, fst st = a ++ mechanics ++ b.
Proof.
  intros [<-|[<-|[<-|[<-|[]]]]].
  - now exists (lit "icon: '"), (lit "'").
  - now exists (lit "mechanic: '"), (lit " Mechanics'").
  - now exists (lit ": '"), (lit " Instance</span>'").
  - now exists
      (lit "const typeIcon = cls.classType === 'character' ? '🎭' : '"),
      (lit "';").
Qed.

Lemma run_pass_catch_all (d : str) :
  run_steps pass d
  = replace mechanics mechanics_svg
            (run_steps (replacements ++ constrained_steps) d).
Proof.
  unfold pass. rewrite app_assoc, run_steps_app. reflexivity.
Qed.

Lemma mechanics_gone (d : str) : count mechanics (run_steps pass d) = 0.
Proof.
  rewrite run_pass_catch_all.
  apply (count_replace_self mechanics mechanics_svg catch_all_self).
Qed.

(** After the pass no step finds its pattern. *)
Lemma no_pattern_left (d : str) (st : step) :
  In st pass -> count (fst st) (run_steps pass d) = 0.
Proof.
  unfold pass at 1. rewrite !in_app_iff. intros [H|[H|[<-|[]]]].
  - destruct st as [old new].
    apply (cleared_steps replacements (constrained_steps ++ [catch_all_step])
             replacements_cleared old new d H).
  - destruct (constrained_contains_mechanics st H) as (a & b & ->).
    apply count_zero_within; [exact mechanics_nonempty|].
    apply mechanics_gone.
  - apply mechanics_gone.
Qed.

(** ** Printing *)

Lemma printed_all (console : codepoint -> bool) (ls : list line) :
  forallb (printable console) ls = true -> printed console ls = ls.
Proof.
  induction ls as [|l ls IH]; [reflexivity|].
  cbn [forallb printed]. intros H. apply andb_true_iff in H as [Hl Hls].
  rewrite Hl. f_equal. now apply IH.
Qed.

Lemma printed_Forall (P : line -> Prop) (console : codepoint -> bool)
      (ls : list line) :
  Forall P ls -> Forall P (printed console ls).
Proof.
  induction 1 as [|l ls Hl _ IH]; [constructor|].
  cbn [printed]. destruct (printable console l); now constructor.
Qed.

(** * The claims *)

(** C1. The full pass is idempotent: for every document the pass returns
    a document on which the pass, run again, changes nothing; and no
    replacement text of a rule contains the pattern of any rule. *)
Theorem transform_idempotent (d : str) :
  (exists d', transform d = Some d' /\ transform d' = Some d')
  /\ forallb (fun st =>
                forallb (fun st' => count (fst st') (snd st) =? 0) pass)
             pass = true.
Proof.
  split.
  - exists (run_steps pass d). split; [apply transform_run|].
    rewrite transform_run. f_equal.
    apply run_absent. intros st. apply no_pattern_left.
  - vm_compute. reflexivity.
Qed.


(** C6. Excluded-glyph invariance: for every symbol the script lists as
    skipped and every document, the symbol occurs in the output as often
    as in the input, and no step of the pass changes its count on any
    text. *)
Theorem skipped_symbols_untouched (e : str) (d : str) :
  In e skipped ->
  (exists d', transform d = Some d' /\ count e d' = count e d)
  /\ (forall old new s,
         In (old, new) pass -> count e (replace old new s) = count e s).
Proof.
  intros He.
  pose proof skipped_framed as H.
  rewrite forallb_forall in H. specialize (H e He).
  split.
  - exists (run_steps pass d). split; [apply transform_run|].
    now apply frame_steps.
  - intros old new s Hin.
    unfold frame_ok in H. rewrite forallb_forall in H.
    specialize (H (old, new) Hin). cbn beta iota in H.
    apply andb_true_iff in H as [Hc Hn]. apply Nat.eqb_eq in Hn.
    now apply count_replace_frame.
Qed.

Lemma skipped_symbols_untouched_witness :
  exists d',
    transform (lit "a⚠️b🎭c⚙️d🔗") = Some d'
    /\ count (lit "⚠️") d' = count (lit "⚠️") (lit "a⚠️b🎭c⚙️d🔗").
Proof.
  apply (skipped_symbols_untouched (lit "⚠️") (lit "a⚠️b🎭c⚙️d🔗")).
  vm_compute. tauto.
Defined.

Lemma simple_loop_lines (table : list (str * str)) (st : state) :
  Forall progress_line (snd st) ->
  Forall progress_line (snd (fold_left simple_step table st)).
Proof.
  revert st; induction table as [|[emoji svg] table IH];
    intros [content out] H; [exact H|].
  cbn [fold_left]. apply IH. unfold simple_step.
  destruct (0 <? count emoji content); [|exact H].
  cbn [snd] in *. apply Forall_app. split; [exact H|].
  now repeat constructor.
Qed.

Lemma catch_all_lines (st : state) :
  Forall progress_line (snd st) ->
  Forall progress_line (snd (catch_all st)).
Proof.
  destruct st as [content out]. intros H. unfold catch_all.
  destruct (0 <? count mechanics content); [|exact H].
  cbn [snd] in *. apply Forall_app. split; [exact H|].
  now repeat constructor.
Qed.

Lemma transform_state_lines (st st' : state) :
  Forall progress_line (snd st) ->
  transform_state st = Some st' ->
  Forall progress_line (snd st').
Proof.
  intros H. unfold transform_state, simple_replacements.
  pose proof (simple_loop_lines replacements st H) as Hl.
  destruct (fold_left simple_step replacements st) as [content out].
  destruct (constrained mechanics_rules content) as [content'|];
    [|discriminate].
  intros E.
  assert (E' : st' = catch_all (content', out)) by congruence.
  rewrite E'. now apply catch_all_lines.
Qed.

(** C10. The transformed content is never shorter than the input: every
    step of the pass puts a strictly longer text for its pattern, the
    new length is at least the original length for every document, and
    the sizes and the signed difference any run reports satisfy
    original <= new and 0 <= difference. *)
Theorem transform_never_shortens (d : str) (w : world) :
  forallb (fun '(old, new) => length old <? length new) pass = true
  /\ (exists d', transform d = Some d' /\ length d <= length d')
  /\ Forall size_line_ok (stdout (main w)).
Proof.
  split; [vm_compute; reflexivity|]. split.
  - exists (run_steps pass d). split; [apply transform_run|].
    apply length_steps. exact pass_lengthens.
  - unfold main.
    destruct (read_text w) as [content|]; [|now repeat constructor].
    destruct (transform_state_run (content, [Reading])) as [out E].
    assert (H0 : Forall progress_line (snd (content, [Reading])))
      by now repeat constructor.
    pose proof (transform_state_lines (content, [Reading]) _ H0 E) as Hl.
    rewrite E. cbn [fst snd] in *.
    assert (Hprog : forall ls, Forall progress_line ls ->
                               Forall size_line_ok ls).
    { intros ls Hp. eapply Forall_impl; [|exact Hp].
      intros [] Hx; try exact I; destruct Hx. }
    pose proof (length_steps pass pass_lengthens content) as Hlen.
    assert (Hp : Forall size_line_ok (out ++ [Writing])).
    { apply Forall_app. split; [now apply Hprog|]. now repeat constructor. }
    destruct (forallb (printable (console w)) (out ++ [Writing]));
      [|cbn [stdout]; now apply printed_Forall].
    destruct (writable w); [|exact Hp].
    destruct (Utf8.encode _); [|exact Hp].
    destruct (write_fault w); [exact Hp|].
    cbn [stdout]. apply Forall_app. split; [exact Hp|].
    apply printed_Forall.
    repeat constructor; cbn [size_line_ok]; [exact Hlen|lia].
Qed.

(** ** Markup counts *)

Lemma table_tally :
  forallb (fun '(emoji, svg) =>
             tally_ok svg [] pass
             && adds_ok svg replacements
                        (constrained_steps ++ [catch_all_step]))
          replacements = true.
Proof. vm_compute. reflexivity. Qed.

Lemma symbols_of_table (emoji svg : str) :
  In (emoji, svg) replacements ->
  symbols_of svg
  = if str_eqb svg chart_up then [lit "📊"; lit "📈"] else [emoji].
Proof.
  unfold replacements. cbn [In]. intros H.
  repeat (destruct H as [H|H];
          [injection H as <- <-; vm_compute; reflexivity|]).
  destruct H.
Qed.

Lemma markup_count (emoji svg d : str) :
  In (emoji, svg) replacements ->
  count svg (run_steps pass d) = count svg d + mapped_to svg d.
Proof.
  intros Hin. pose proof table_tally as H.
  rewrite forallb_forall in H. specialize (H (emoji, svg) Hin).
  cbn beta iota in H. apply andb_true_iff in H as [Ht Ha].
  pose proof (tally_steps svg pass [] Ht d) as E.
  change (run_steps [] d) with d in E. rewrite E. f_equal.
  unfold pass at 1. now apply inserted_symbols.
Qed.

Lemma mapped_single (emoji svg d : str) :
  symbols_of svg = [emoji] -> mapped_to svg d = count emoji d.
Proof.
  intros Hs. unfold mapped_to. rewrite Hs. cbn [map]. unfold list_sum.
  cbn [fold_right]. lia.
Qed.

Lemma chart_symbols : symbols_of chart_up = [lit "📊"; lit "📈"].
Proof. vm_compute. reflexivity. Qed.

Lemma mapped_chart (d : str) :
  mapped_to chart_up d = count (lit "📊") d + count (lit "📈") d.
Proof.
  unfold mapped_to. rewrite chart_symbols. cbn [map]. unfold list_sum.
  cbn [fold_right]. lia.
Qed.

(** C2, as stated, fails where two symbols share a markup string: on a
    document with one chart symbol of each kind the markup occurs twice
    in the output, once more than the count of either symbol. *)
Lemma generic_count_counterexample :
  ~ (forall emoji svg d d',
        In (emoji, svg) replacements ->
        transform d = Some d' ->
        count emoji d' = 0
        /\ count svg d' = count svg d + count emoji d).
Proof.
  intros H.
  assert (Hin : In (lit "📊", chart_up) replacements)
    by (do 4 right; left; reflexivity).
  specialize (H _ _ (lit "📊📈") _ Hin (transform_run _)).
  destruct H as [_ H]. vm_compute in H. discriminate.
Qed.

(** C2, amended. For every (symbol, markup) pair of the table and every
    document, the output has no occurrence of the symbol, and the markup
    occurs in the output as often as in the input plus the number of
    occurrences in the input of all symbols the table maps to that
    markup: the symbol alone for every pair but the two chart symbols,
    which share one markup. *)
Theorem generic_symbols_complete (emoji svg d : str) :
  In (emoji, svg) replacements ->
  exists d',
    transform d = Some d'
    /\ count emoji d' = 0
    /\ count svg d' = count svg d + mapped_to svg d
    /\ (svg <> chart_up -> count svg d' = count svg d + count emoji d)
    /\ (svg = chart_up ->
        count svg d'
        = count svg d + count (lit "📊") d + count (lit "📈") d).
Proof.
  intros Hin. exists (run_steps pass d).
  split; [apply transform_run|].
  split.
  { apply (no_pattern_left d (emoji, svg)).
    unfold pass. apply in_or_app. now left. }
  pose proof (markup_count emoji svg d Hin) as Hm.
  split; [exact Hm|].
  pose proof (symbols_of_table emoji svg Hin) as Hs.
  split.
  - intros Hne. etransitivity; [exact Hm|]. f_equal.
    apply mapped_single.
    destruct (str_eqb svg chart_up) eqn:E; [|exact Hs].
    apply str_eqb_eq in E. contradiction.
  - intros E. etransitivity; [exact Hm|]. rewrite <- Nat.add_assoc.
    f_equal. rewrite E. apply mapped_chart.
Qed.

Lemma generic_symbols_complete_witness :
  exists d',
    transform (lit "a🔗b🔗") = Some d'
    /\ count (lit "🔗") d' = 0
    /\ count (svg14 "icons/misc/link.svg") d'
       = count (svg14 "icons/misc/link.svg") (lit "a🔗b🔗")
         + count (lit "🔗") (lit "a🔗b🔗").
Proof.
  destruct (generic_symbols_complete
              (lit "🔗") (svg14 "icons/misc/link.svg") (lit "a🔗b🔗"))
    as (d' & Ht & H0 & _ & Hn & _).
  - left. reflexivity.
  - exists d'. split; [exact Ht|]. split; [exact H0|].
    apply Hn. vm_compute. discriminate.
Defined.

(** ** The literals of the mechanics rules *)

Lemma track_icon : track pass (lit "icon: '⚙️'") = Some (snd icon_rule).
Proof. vm_compute. reflexivity. Qed.

Lemma track_mechanic :
  track pass (lit "mechanic: '⚙️ Mechanics'") = Some (snd mechanic_rule).
Proof. vm_compute. reflexivity. Qed.

Lemma track_typeIcon :
  track pass
    (lit "const typeIcon = cls.classType === 'character' ? '🎭' : '⚙️';")
  = Some (snd typeIcon_rule).
Proof. vm_compute. reflexivity. Qed.

Lemma transform_around (x y : str) :
  track pass x = Some y ->
  forall l r,
    transform (l ++ x ++ r)
    = Some (run_steps pass l ++ y ++ run_steps pass r).
Proof.
  intros H l r. rewrite transform_run. f_equal.
  now apply track_steps.
Qed.

(** A text put between the same two texts differs as the text does. *)
Lemma context_differs (a x y b : str) :
  x <> y -> Some (a ++ x ++ b) <> Some (a ++ y ++ b).
Proof.
  intros H E. apply H.
  assert (E' : a ++ x ++ b = a ++ y ++ b) by congruence.
  apply app_inv_head in E'. now apply app_inv_tail in E'.
Qed.

(** C3, on the code. Wherever the literal [icon: '⚙️'] stands in a
    document, the output has there the same key and the same two
    quotes, and wherever [mechanic: '⚙️ Mechanics'] stands, the word
    Mechanics and the quotes stay; the text before and after is
    transformed as it would be alone.  But what stands for the symbol
    is the image tag as the rule's template spells it, with a backslash
    before every double quote, and not the markup of the symbol: in
    every context, and for the literal alone, the output differs from
    the literal with the markup in the place of the symbol. *)
Theorem mechanics_literals_in_context (l r : str) :
  exists l' r',
    transform l = Some l' /\ transform r = Some r'
    /\ transform (l ++ lit "icon: '⚙️'" ++ r)
       = Some (l' ++ (lit "icon: '" ++ mechanics_raw ++ lit "'") ++ r')
    /\ transform (l ++ lit "mechanic: '⚙️ Mechanics'" ++ r)
       = Some (l' ++ (lit "mechanic: '" ++ mechanics_raw
                      ++ lit " Mechanics'") ++ r')
    /\ mechanics_raw = backslashed mechanics_svg
    /\ transform (l ++ lit "icon: '⚙️'" ++ r)
       <> Some (l' ++ (lit "icon: '" ++ mechanics_svg ++ lit "'") ++ r')
    /\ transform (l ++ lit "mechanic: '⚙️ Mechanics'" ++ r)
       <> Some (l' ++ (lit "mechanic: '" ++ mechanics_svg
                       ++ lit " Mechanics'") ++ r')
    /\ transform (lit "icon: '⚙️'")
       <> Some (lit "icon: '" ++ mechanics_svg ++ lit "'")
    /\ transform (lit "mechanic: '⚙️ Mechanics'")
       <> Some (lit "mechanic: '" ++ mechanics_svg ++ lit " Mechanics'").
Proof.
  exists (run_steps pass l), (run_steps pass r).
  pose proof (transform_around _ _ track_icon l r) as Hi.
  pose proof (transform_around _ _ track_mechanic l r) as Hm.
  split; [apply transform_run|]. split; [apply transform_run|].
  split; [exact Hi|]. split; [exact Hm|].
  split; [vm_compute; reflexivity|].
  split; [rewrite Hi; apply context_differs; vm_compute; discriminate|].
  split; [rewrite Hm; apply context_differs; vm_compute; discriminate|].
  split; vm_compute; discriminate.
Qed.

(** C4, on the code. Wherever the typeIcon assignment stands in a
    document, the output has it with the first branch ['🎭'] and
    everything else of the statement unchanged, and only the symbol of
    the second branch replaced.  But what stands for that symbol is the
    image tag as the rule's template spells it, with a backslash before
    every double quote, and not the markup of the symbol: in every
    context, and for the statement alone, the output differs from the
    statement with the markup in the place of the symbol. *)
Theorem typeIcon_first_branch_kept (l r : str) :
  exists l' r',
    transform l = Some l' /\ transform r = Some r'
    /\ transform
         (l ++ lit "const typeIcon = cls.classType === 'character' ? '🎭' : '⚙️';"
            ++ r)
       = Some
           (l' ++ (lit "const typeIcon = cls.classType === 'character' ? '🎭' : '"
                   ++ mechanics_raw ++ lit "';") ++ r')
    /\ mechanics_raw = backslashed mechanics_svg
    /\ transform
         (l ++ lit "const typeIcon = cls.classType === 'character' ? '🎭' : '⚙️';"
            ++ r)
       <> Some
            (l' ++ (lit "const typeIcon = cls.classType === 'character' ? '🎭' : '"
                    ++ mechanics_svg ++ lit "';") ++ r')
    /\ transform
         (lit "const typeIcon = cls.classType === 'character' ? '🎭' : '⚙️';")
       <> Some (lit "const typeIcon = cls.classType === 'character' ? '🎭' : '"
                ++ mechanics_svg ++ lit "';").
Proof.
  exists (run_steps pass l), (run_steps pass r).
  pose proof (transform_around _ _ track_typeIcon l r) as Ht.
  split; [apply transform_run|]. split; [apply transform_run|].
  split; [exact Ht|].
  split; [vm_compute; reflexivity|].
  split; [rewrite Ht; apply context_differs; vm_compute; discriminate|].
  vm_compute. discriminate.
Qed.

(** ** The run *)




(** C7, on the code. For a file that holds the link symbol three times
    the script records the original size 3, the number of characters,
    where the file has 12 bytes, and it reports the difference
    276 = 3 * (93 - 1), where the bytes of the file grow by
    267 = 3 * (93 - 4): the sizes are lengths in code points. *)
Theorem three_links_report :
  read_text three_links = Some (lit "🔗🔗🔗")
  /\ utf8_length (lit "🔗🔗🔗") = Some 12
  /\ utf8_length (lit "🔗") = Some 4
  /\ utf8_length (svg14 "icons/misc/link.svg") = Some 93
  /\ stdout (main three_links)
     = [Reading; Replaced 3 (lit "🔗"); Writing; Done 3 279;
        Difference 276; Complete; Skipped]
  /\ option_map (@length Byte.byte) (disk three_links) = Some 12
  /\ option_map (@length Byte.byte) (final_disk (main three_links))
     = Some 279
  /\ (276 <> 3 * (93 - 4))%Z.
Proof. repeat split; try (vm_compute; reflexivity). discriminate. Qed.

(** C9, on the code. The four patterns are literals, and each [re.sub]
    is the replacement of a literal; but the templates expand to
    themselves, the backslash before each double quote kept: the image
    tag the rules insert is the markup of the catch-all with a backslash
    before every double quote, and differs from it.  The rules agree
    with the plain-quote reading on the patterns and differ from it in
    every replacement text, so on [icon: '⚙️'] the two give different
    outputs. *)
Theorem constrained_markup_keeps_backslashes :
  map (fun r => Re.literal_of_pattern (fst r)) mechanics_rules
  = map Some [icon_literal; mechanic_literal; instance_literal;
              typeIcon_literal]
  /\ map (fun r => Re.expand_template (snd r)) mechanics_rules
     = map (fun r => Some (snd r)) mechanics_rules
  /\ (forall s, constrained mechanics_rules s
                = Some (run_steps constrained_steps s))
  /\ mechanics_raw = backslashed mechanics_svg
  /\ mechanics_raw <> mechanics_svg
  /\ map fst constrained_steps = map fst plain_quote_steps
  /\ map snd constrained_steps
     = map (fun st => backslashed (snd st)) plain_quote_steps
  /\ constrained mechanics_rules (lit "icon: '⚙️'")
     = Some (lit "icon: '" ++ mechanics_raw ++ lit "'")
  /\ run_steps plain_quote_steps (lit "icon: '⚙️'")
     = lit "icon: '" ++ mechanics_svg ++ lit "'"
  /\ transform (lit "icon: '⚙️'")
     = Some (lit "icon: '" ++ mechanics_raw ++ lit "'")
  /\ transform (lit "⚙️") = Some mechanics_svg.
Proof.
  split; [vm_compute; reflexivity|].
  split; [vm_compute; reflexivity|].
  split; [apply constrained_run; exact mechanics_rules_literal|].
  split; [vm_compute; reflexivity|].
  split; [vm_compute; discriminate|].
  repeat split; vm_compute; reflexivity.
Qed.

(** * Further properties of the script *)

(** ** What the loop reports *)

Lemma run_steps_snoc (pre : list step) (old new s : str) :
  run_steps (pre ++ [(old, new)]) s = replace old new (run_steps pre s).
Proof. apply run_steps_app. Qed.

(** The loop prints the counts of the input document: no replacement
    changes how often a later symbol occurs. *)
Lemma loop_report (table : list (str * str)) :
  forall pre d out,
    independent pre table = true ->
    fold_left simple_step table (run_steps pre d, out)
    = (run_steps table (run_steps pre d), out ++ reported table d).
Proof.
  induction table as [|[emoji svg] table IH]; intros pre d out H.
  - cbn [fold_left reported flat_map]. now rewrite app_nil_r.
  - cbn [independent fst] in H. apply andb_true_iff in H as [Hf Hi].
    cbn [fold_left]. rewrite run_steps_cons. cbn [fst snd].
    pose proof (frame_steps emoji pre Hf d) as Hn.
    assert (Es : simple_step (run_steps pre d, out) (emoji, svg)
                 = (run_steps (pre ++ [(emoji, svg)]) d,
                    out ++ (if 0 <? count emoji d
                            then [Replaced (count emoji d) emoji]
                            else []))).
    { unfold simple_step. rewrite run_steps_snoc, Hn.
      destruct (0 <? count emoji d) eqn:E; [reflexivity|].
      rewrite app_nil_r. f_equal. symmetry. apply replace_absent.
      apply Nat.ltb_ge in E. lia. }
    rewrite Es, (IH _ d _ Hi), run_steps_snoc.
    f_equal. unfold reported. cbn [flat_map]. now rewrite app_assoc.
Qed.

Lemma replacements_independent : independent [] replacements = true.
Proof. vm_compute. reflexivity. Qed.

(** ** The mechanics symbols left to the last step *)

Lemma drain_steps (e : str) (steps : list step) :
  forall pre,
    drain_ok e pre steps = true ->
    forall s,
      count e (run_steps steps (run_steps pre s)) + removed e steps s
      = count e (run_steps pre s).
Proof.
  induction steps as [|[old new] rest IH]; intros pre H s.
  - cbn. lia.
  - cbn [drain_ok] in H. apply andb_true_iff in H as [H Hrest].
    apply andb_true_iff in H as [H Hf].
    apply andb_true_iff in H as [Hc H0]. apply Nat.eqb_eq in H0.
    rewrite run_steps_cons. cbn [fst snd].
    rewrite <- run_steps_snoc.
    pose proof (IH _ Hrest s) as E1.
    rewrite run_steps_snoc in E1 |- *.
    pose proof (count_replace e old new Hc (run_steps pre s)) as E2.
    rewrite H0, (frame_steps old pre Hf s) in E2.
    unfold removed in *. cbn [map fst]. unfold list_sum in *.
    cbn [fold_right]. lia.
Qed.

Lemma mechanics_drained :
  drain_ok mechanics [] (replacements ++ constrained_steps) = true.
Proof. vm_compute. reflexivity. Qed.

Lemma removed_app (e : str) (a b : list step) (s : str) :
  removed e (a ++ b) s = removed e a s + removed e b s.
Proof. unfold removed. now rewrite map_app, list_sum_app. Qed.

Lemma removed_none (e : str) (steps : list step) (s : str) :
  forallb (fun st => count e (fst st) =? 0) steps = true ->
  removed e steps s = 0.
Proof.
  induction steps as [|st steps IH]; intros H; [reflexivity|].
  cbn [forallb] in H. apply andb_true_iff in H as [H0 H].
  apply Nat.eqb_eq in H0. unfold removed in *. cbn [map].
  unfold list_sum in *. cbn [fold_right]. rewrite H0, IH by assumption.
  lia.
Qed.

Lemma removed_one (e : str) (steps : list step) (s : str) :
  forallb (fun st => count e (fst st) =? 1) steps = true ->
  removed e steps s = list_sum (map (fun st => count (fst st) s) steps).
Proof.
  induction steps as [|st steps IH]; intros H; [reflexivity|].
  cbn [forallb] in H. apply andb_true_iff in H as [H1 H].
  apply Nat.eqb_eq in H1. unfold removed in *. cbn [map].
  unfold list_sum in *. cbn [fold_right]. rewrite H1, IH by assumption.
  lia.
Qed.

Lemma before_catch_all (d : str) :
  count mechanics (run_steps (replacements ++ constrained_steps) d)
  = remaining d.
Proof.
  pose proof (drain_steps mechanics _ [] mechanics_drained d) as E.
  change (run_steps [] d) with d in E.
  rewrite removed_app in E.
  rewrite removed_none in E by (vm_compute; reflexivity).
  rewrite removed_one in E by (vm_compute; reflexivity).
  unfold remaining, constrained_matches. lia.
Qed.

Lemma transform_state_log (d : str) (out : list line) :
  transform_state (d, out)
  = Some (run_steps pass d,
          out ++ reported replacements d ++ remaining_line d).
Proof.
  unfold transform_state, simple_replacements.
  pose proof (loop_report replacements [] d out replacements_independent)
    as E.
  change (run_steps [] d) with d in E. rewrite E.
  rewrite (constrained_run mechanics_rules constrained_steps
             mechanics_rules_literal).
  f_equal. unfold catch_all.
  rewrite <- run_steps_app, before_catch_all.
  unfold pass. rewrite app_assoc, (run_steps_app _ [catch_all_step]).
  unfold remaining_line.
  destruct (0 <? remaining d) eqn:Er.
  - now rewrite <- app_assoc.
  - rewrite !app_nil_r. f_equal.
    change (run_steps [catch_all_step] ?x)
      with (replace mechanics mechanics_svg x).
    symmetry. apply replace_absent. rewrite before_catch_all.
    apply Nat.ltb_ge in Er. lia.
Qed.

(** X1. The run prints, after the lines it was given, one line for
    each symbol of the table that occurs in the input, in the order of
    the table and with the number of occurrences in the input, and then
    a line for the mechanics symbols that are in none of the four
    literals, if there are any. *)
Theorem transform_state_report (d : str) (out : list line) :
  transform_state (d, out)
  = Some (run_steps pass d,
          out ++ reported replacements d ++ remaining_line d)
  /\ remaining d + constrained_matches d = count mechanics d.
Proof.
  split; [apply transform_state_log|].
  pose proof (drain_steps mechanics _ [] mechanics_drained d) as E.
  change (run_steps [] d) with d in E.
  rewrite removed_app in E.
  rewrite removed_none in E by (vm_compute; reflexivity).
  rewrite removed_one in E by (vm_compute; reflexivity).
  rewrite before_catch_all in E. unfold constrained_matches. lia.
Qed.

(** ** Sizes *)

Section Size.

(** A size that adds up over concatenation: the length, or the number
    of bytes in UTF-8. *)
Variable size : str -> nat.
Hypothesis size_app : forall a b, size (a ++ b) = size a + size b.

Lemma size_nil : size [] = 0.
Proof. pose proof (size_app [] []) as H. cbn [app] in H. lia. Qed.

Lemma size_replace (old new : str) :
  old <> [] ->
  forall s,
    size (replace old new s) + count old s * size old
    = size s + count old s * size new.
Proof.
  intros Ho. apply (scan_ind old Ho).
  - rewrite replace_nil, count_nil by assumption. lia.
  - intros r IH. rewrite replace_match, count_match by assumption.
    rewrite !size_app. specialize (IH r (le_n _)). lia.
  - intros c s Hs IH.
    rewrite replace_miss, count_miss by assumption.
    change (c :: replace old new s) with ([c] ++ replace old new s).
    change (c :: s) with ([c] ++ s).
    rewrite !size_app. specialize (IH s (le_n _)). lia.
Qed.

(** Steps that see the counts of the input add what [gain] says. *)
Lemma gain_steps (steps : list step) :
  forall pre,
    independent pre steps = true -> grows size steps = true ->
    forall s,
      size (run_steps steps (run_steps pre s))
      = size (run_steps pre s) + gain size steps s.
Proof.
  induction steps as [|[old new] rest IH]; intros pre Hi Hg s.
  - cbn. lia.
  - cbn [independent fst] in Hi. apply andb_true_iff in Hi as [Hf Hi].
    cbn [grows forallb fst snd] in Hg.
    apply andb_true_iff in Hg as [Hg Hrest].
    apply andb_true_iff in Hg as [Ho Hle].
    apply nonempty_iff in Ho. apply Nat.leb_le in Hle.
    rewrite run_steps_cons. cbn [fst snd].
    pose proof (IH _ Hi Hrest s) as E1.
    rewrite run_steps_snoc in E1. rewrite E1.
    pose proof (size_replace old new Ho (run_steps pre s)) as E2.
    rewrite (frame_steps old pre Hf s) in E2.
    unfold gain. cbn [map fst snd]. unfold list_sum. cbn [fold_right].
    nia.
Qed.

(** The growth of the whole pass. *)
Lemma size_pass (d : str) :
  grows size pass = true ->
  size (run_steps pass d) = size d + growth size d.
Proof.
  intros Hg. unfold pass in Hg. rewrite app_assoc in Hg.
  unfold grows in Hg. rewrite forallb_app in Hg.
  apply andb_true_iff in Hg as [Hg Hc].
  cbn [forallb catch_all_step fst snd] in Hc.
  rewrite andb_true_r in Hc. apply andb_true_iff in Hc as [_ Hle].
  apply Nat.leb_le in Hle.
  rewrite run_pass_catch_all.
  pose proof (size_replace mechanics mechanics_svg mechanics_nonempty
                (run_steps (replacements ++ constrained_steps) d)) as E.
  rewrite before_catch_all in E.
  assert (Hi : independent [] (replacements ++ constrained_steps) = true)
    by (vm_compute; reflexivity).
  pose proof (gain_steps _ [] Hi Hg d) as E2.
  change (run_steps [] d) with d in E2.
  unfold growth. nia.
Qed.

End Size.

Lemma byte_size_app (a b : str) :
  byte_size (a ++ b) = byte_size a + byte_size b.
Proof. unfold byte_size. now rewrite map_app, list_sum_app. Qed.

Lemma pass_grows_length : grows (@length codepoint) pass = true.
Proof. vm_compute. reflexivity. Qed.

Lemma pass_grows_bytes : grows byte_size pass = true.
Proof. vm_compute. reflexivity. Qed.

(** X2. The length of the output, in code points, is the length of the
    input plus, for every step, the occurrences of its pattern in the
    input times what the step adds: each table symbol by the length of
    its markup less its own, each match of one of the four literals by
    112, each other mechanics symbol by 102. *)
Theorem length_growth (d : str) :
  exists d',
    transform d = Some d'
    /\ length d' = length d + growth (@length codepoint) d
    /\ growth (@length codepoint) d
       = gain (@length codepoint) replacements d
         + constrained_matches d * 112 + remaining d * 102.
Proof.
  exists (run_steps pass d). split; [apply transform_run|]. split.
  - apply size_pass; [apply length_app|exact pass_grows_length].
  - unfold growth, gain. rewrite map_app, list_sum_app.
    unfold constrained_matches, constrained_steps.
    cbn [map fst snd]. unfold list_sum at 2 3. cbn [fold_right].
    replace (length mechanics_svg - length mechanics) with 102
      by (vm_compute; reflexivity).
    replace (length (snd icon_rule) - length icon_literal) with 112
      by (vm_compute; reflexivity).
    replace (length (snd mechanic_rule) - length mechanic_literal) with 112
      by (vm_compute; reflexivity).
    replace (length (snd instance_rule) - length instance_literal) with 112
      by (vm_compute; reflexivity).
    replace (length (snd typeIcon_rule) - length typeIcon_literal) with 112
      by (vm_compute; reflexivity).
    unfold list_sum. cbn [fold_right]. lia.
Qed.

(** X3. In UTF-8 bytes the output is the input plus, for every step,
    the occurrences of its pattern in the input times the bytes the step
    adds: each match of one of the four literals adds 108 bytes, each
    other mechanics symbol 98. *)
Theorem byte_growth (d : str) :
  exists d',
    transform d = Some d'
    /\ byte_size d' = byte_size d + growth byte_size d
    /\ growth byte_size d
       = gain byte_size replacements d
         + constrained_matches d * 108 + remaining d * 98.
Proof.
  exists (run_steps pass d). split; [apply transform_run|]. split.
  - apply size_pass; [apply byte_size_app|exact pass_grows_bytes].
  - unfold growth, gain. rewrite map_app, list_sum_app.
    unfold constrained_matches, constrained_steps.
    cbn [map fst snd]. unfold list_sum at 2 3. cbn [fold_right].
    replace (byte_size mechanics_svg - byte_size mechanics) with 98
      by (vm_compute; reflexivity).
    replace (byte_size (snd icon_rule) - byte_size icon_literal) with 108
      by (vm_compute; reflexivity).
    replace (byte_size (snd mechanic_rule) - byte_size mechanic_literal)
      with 108 by (vm_compute; reflexivity).
    replace (byte_size (snd instance_rule) - byte_size instance_literal)
      with 108 by (vm_compute; reflexivity).
    replace (byte_size (snd typeIcon_rule) - byte_size typeIcon_literal)
      with 108 by (vm_compute; reflexivity).
    unfold list_sum. cbn [fold_right]. lia.
Qed.

(** ** The codec *)

Ltac props :=
  repeat match goal with
         | H : (_ <? _)%N = true |- _ => apply N.ltb_lt in H
         | H : (_ <? _)%N = false |- _ => apply N.ltb_ge in H
         | H : (_ <=? _)%N = true |- _ => apply N.leb_le in H
         | H : (_ <=? _)%N = false |- _ => apply N.leb_gt in H
         end.

Ltac arith :=
  props; first [lia | zify; Z.to_euclidean_division_equations; lia].

Ltac decide_test :=
  match goal with
  | |- context [if ?b then _ else _] =>
    first [ replace b with true by (symmetry; arith)
          | replace b with false by (symmetry; arith) ]
  end.

Ltac split_tests :=
  repeat match goal with
         | H : (_ && _) = true |- _ => apply andb_true_iff in H as [? ?]
         | H : negb _ = true |- _ => apply negb_true_iff in H
         end.

Lemma to_N_byte_of (n : N) :
  (n < 256)%N -> Byte.to_N (Utf8.byte_of n) = n.
Proof.
  intros H. unfold Utf8.byte_of. destruct (Byte.of_N n) eqn:E.
  - now apply Byte.to_of_N.
  - apply Byte.of_N_None_iff in E. lia.
Qed.

Lemma byte_of_to_N (b : Byte.byte) : Utf8.byte_of (Byte.to_N b) = b.
Proof. unfold Utf8.byte_of. now rewrite Byte.of_to_N. Qed.

Local Opaque N.add N.mul N.div N.modulo N.sub N.ltb N.leb.

Lemma decode_encode_char (c : N) (bc rest : bytes) :
  Utf8.encode_char c = Some bc ->
  Utf8.decode (bc ++ rest) = option_map (cons c) (Utf8.decode rest).
Proof.
  unfold Utf8.encode_char.
  destruct (c <? 128)%N eqn:E1.
  { intros [= <-]. cbn [app]. cbn [Utf8.decode].
    rewrite !to_N_byte_of by arith. now rewrite E1. }
  destruct (c <? 2048)%N eqn:E2.
  { intros [= <-]. cbn [app]. cbn [Utf8.decode]. unfold Utf8.continuation.
    rewrite !to_N_byte_of by arith.
    replace ((192 + c / 64 - 192) * 64 + (128 + c mod 64 - 128))%N
      with c by arith.
    repeat decide_test. reflexivity. }
  destruct (c <? 65536)%N eqn:E3.
  { destruct (Utf8.surrogate c) eqn:Es; [discriminate|].
    intros [= <-]. cbn [app]. cbn [Utf8.decode]. unfold Utf8.continuation.
    rewrite !to_N_byte_of by arith.
    replace ((224 + c / 4096 - 224) * 4096
             + (128 + (c / 64) mod 64 - 128) * 64
             + (128 + c mod 64 - 128))%N with c by arith.
    rewrite Es.
    repeat decide_test. reflexivity. }
  destruct (c <=? 1114111)%N eqn:E4; [|discriminate].
  intros [= <-]. cbn [app]. cbn [Utf8.decode]. unfold Utf8.continuation.
  rewrite !to_N_byte_of by arith.
  replace ((240 + c / 262144 - 240) * 262144
           + (128 + (c / 4096) mod 64 - 128) * 4096
           + (128 + (c / 64) mod 64 - 128) * 64
           + (128 + c mod 64 - 128))%N with c by arith.
  repeat decide_test. reflexivity.
Qed.

Lemma utf8_decode_encode (s : str) (bs : bytes) :
  Utf8.encode s = Some bs -> Utf8.decode bs = Some s.
Proof.
  revert bs. induction s as [|c s IH]; intros bs H.
  - injection H as <-. reflexivity.
  - cbn [Utf8.encode] in H.
    destruct (Utf8.encode_char c) as [bc|] eqn:Ec; [|discriminate].
    destruct (Utf8.encode s) as [bs'|] eqn:Es; [|discriminate].
    injection H as <-.
    rewrite (decode_encode_char c bc bs' Ec), (IH bs' eq_refl).
    reflexivity.
Qed.

(** X4. Decoding what the codec encoded gives the text back. *)
Theorem decode_encode (s : str) (bs : bytes) :
  Utf8.encode s = Some bs -> Utf8.decode bs = Some s.
Proof. apply utf8_decode_encode. Qed.

Lemma decode_encode_witness :
  Utf8.decode (list_byte_of_string "a🔗é⚙️") = Some (lit "a🔗é⚙️").
Proof. apply decode_encode. vm_compute. reflexivity. Defined.

Lemma encode_decode_upto (n : nat) :
  forall bs s,
    length bs <= n -> Utf8.decode bs = Some s -> Utf8.encode s = Some bs.
Proof.
  induction n as [|n IH]; intros bs s Hl H.
  - destruct bs; [|simpl in Hl; lia]. injection H as <-. reflexivity.
  - destruct bs as [|b0 r0]; [injection H as <-; reflexivity|].
    cbn [Utf8.decode] in H. cbn [length] in Hl.
    pose proof (Byte.to_N_bounded b0) as B0.
    pose proof (byte_of_to_N b0) as R0.
    set (n0 := Byte.to_N b0) in *.
    destruct (n0 <? 128)%N eqn:E1.
    { destruct (Utf8.decode r0) as [s0|] eqn:D; [|discriminate].
      injection H as <-. cbn [Utf8.encode].
      rewrite (IH r0 s0) by (trivial; lia).
      unfold Utf8.encode_char. rewrite E1, R0. reflexivity. }
    destruct ((194 <=? n0) && (n0 <=? 223))%N eqn:E2.
    { destruct r0 as [|b1 r1]; [discriminate|].
      pose proof (Byte.to_N_bounded b1) as B1.
      pose proof (byte_of_to_N b1) as R1.
      set (n1 := Byte.to_N b1) in *. unfold Utf8.continuation in H.
      destruct ((128 <=? n1) && (n1 <=? 191))%N eqn:C1; [|discriminate].
      destruct (Utf8.decode r1) as [s0|] eqn:D; [|discriminate].
      injection H as <-. cbn [Utf8.encode length] in *.
      rewrite (IH r1 s0) by (trivial; lia).
      split_tests. unfold Utf8.encode_char.
      set (c := ((n0 - 192) * 64 + (n1 - 128))%N).
      assert (Hc : (c <? 128)%N = false) by (subst c; arith).
      assert (Hc2 : (c <? 2048)%N = true) by (subst c; arith).
      rewrite Hc, Hc2.
      replace (192 + c / 64)%N with n0 by (subst c; arith).
      replace (128 + c mod 64)%N with n1 by (subst c; arith).
      rewrite R0, R1. reflexivity. }
    destruct ((224 <=? n0) && (n0 <=? 239))%N eqn:E3.
    { destruct r0 as [|b1 [|b2 r2]]; try discriminate.
      pose proof (Byte.to_N_bounded b1) as B1.
      pose proof (byte_of_to_N b1) as R1.
      pose proof (Byte.to_N_bounded b2) as B2.
      pose proof (byte_of_to_N b2) as R2.
      set (n1 := Byte.to_N b1) in *. set (n2 := Byte.to_N b2) in *.
      unfold Utf8.continuation in H.
      set (c := ((n0 - 224) * 4096 + (n1 - 128) * 64 + (n2 - 128))%N) in *.
      destruct ((128 <=? n1) && (n1 <=? 191)
                && ((128 <=? n2) && (n2 <=? 191))
                && (2048 <=? c) && negb (Utf8.surrogate c))%N eqn:C;
        [|discriminate].
      destruct (Utf8.decode r2) as [s0|] eqn:D; [|discriminate].
      injection H as <-. cbn [Utf8.encode length] in *.
      rewrite (IH r2 s0) by (trivial; lia).
      split_tests. unfold Utf8.encode_char.
      assert (Hc : (c <? 128)%N = false) by arith.
      assert (Hc2 : (c <? 2048)%N = false) by arith.
      assert (Hc3 : (c <? 65536)%N = true) by (subst c; arith).
      rewrite Hc, Hc2, Hc3.
      match goal with Hs : Utf8.surrogate c = false |- _ => rewrite Hs end.
      replace (224 + c / 4096)%N with n0 by (subst c; arith).
      replace (128 + (c / 64) mod 64)%N with n1 by (subst c; arith).
      replace (128 + c mod 64)%N with n2 by (subst c; arith).
      rewrite R0, R1, R2. reflexivity. }
    destruct ((240 <=? n0) && (n0 <=? 244))%N eqn:E4; [|discriminate].
    destruct r0 as [|b1 [|b2 [|b3 r3]]]; try discriminate.
    pose proof (Byte.to_N_bounded b1) as B1.
    pose proof (byte_of_to_N b1) as R1.
    pose proof (Byte.to_N_bounded b2) as B2.
    pose proof (byte_of_to_N b2) as R2.
    pose proof (Byte.to_N_bounded b3) as B3.
    pose proof (byte_of_to_N b3) as R3.
    set (n1 := Byte.to_N b1) in *. set (n2 := Byte.to_N b2) in *.
    set (n3 := Byte.to_N b3) in *.
    unfold Utf8.continuation in H.
    set (c := ((n0 - 240) * 262144 + (n1 - 128) * 4096 + (n2 - 128) * 64
               + (n3 - 128))%N) in *.
    destruct ((128 <=? n1) && (n1 <=? 191) && ((128 <=? n2) && (n2 <=? 191))
              && ((128 <=? n3) && (n3 <=? 191))
              && (65536 <=? c) && (c <=? 1114111))%N eqn:C; [|discriminate].
    destruct (Utf8.decode r3) as [s0|] eqn:D; [|discriminate].
    injection H as <-. cbn [Utf8.encode length] in *.
    rewrite (IH r3 s0) by (trivial; lia).
    split_tests. unfold Utf8.encode_char.
    assert (Hc : (c <? 128)%N = false) by arith.
    assert (Hc2 : (c <? 2048)%N = false) by arith.
    assert (Hc3 : (c <? 65536)%N = false) by arith.
    assert (Hc4 : (c <=? 1114111)%N = true) by arith.
    rewrite Hc, Hc2, Hc3, Hc4.
    replace (240 + c / 262144)%N with n0 by (subst c; arith).
    replace (128 + (c / 4096) mod 64)%N with n1 by (subst c; arith).
    replace (128 + (c / 64) mod 64)%N with n2 by (subst c; arith).
    replace (128 + c mod 64)%N with n3 by (subst c; arith).
    rewrite R0, R1, R2, R3. reflexivity.
Qed.

Lemma utf8_encode_decode (bs : bytes) (s : str) :
  Utf8.decode bs = Some s -> Utf8.encode s = Some bs.
Proof. apply (encode_decode_upto (length bs)). apply le_n. Qed.

(** X5. A byte sequence the strict decoder accepts is the encoding of
    the text it decodes to: no two byte sequences decode to one text,
    and what was read can be written back byte for byte. *)
Theorem encode_decode (bs : bytes) (s : str) :
  Utf8.decode bs = Some s -> Utf8.encode s = Some bs.
Proof. apply utf8_encode_decode. Qed.

Lemma encode_decode_witness :
  Utf8.encode (lit "a🔗é⚙️") = Some (list_byte_of_string "a🔗é⚙️").
Proof. apply encode_decode. vm_compute. reflexivity. Defined.

Lemma encode_char_scalar (c : N) :
  scalar c = true <-> exists bc, Utf8.encode_char c = Some bc.
Proof.
  unfold scalar, Utf8.encode_char, Utf8.surrogate.
  destruct (c <? 128)%N eqn:E1; [split; [eauto|intros _; arith]|].
  destruct (c <? 2048)%N eqn:E2; [split; [eauto|intros _; arith]|].
  destruct (c <? 65536)%N eqn:E3.
  - destruct ((55296 <=? c) && (c <=? 57343))%N eqn:Es.
    + split; [intros H; exfalso; arith|intros [bc H]; discriminate].
    + split; [eauto|intros _; arith].
  - destruct (c <=? 1114111)%N eqn:E4.
    + split; [eauto|intros _; arith].
    + split; [intros H; exfalso; arith|intros [bc H]; discriminate].
Qed.

Lemma encode_char_length (c : N) (bc : bytes) :
  Utf8.encode_char c = Some bc -> length bc = char_bytes c.
Proof.
  unfold Utf8.encode_char, char_bytes.
  destruct (c <? 128)%N; [now intros [= <-]|].
  destruct (c <? 2048)%N; [now intros [= <-]|].
  destruct (c <? 65536)%N.
  - destruct (Utf8.surrogate c); [discriminate|now intros [= <-]].
  - destruct (c <=? 1114111)%N; [now intros [= <-]|discriminate].
Qed.

Local Transparent N.add N.mul N.div N.modulo N.sub N.ltb N.leb.

Lemma utf8_encode_defined (s : str) :
  (forallb scalar s = true <-> exists bs, Utf8.encode s = Some bs)
  /\ (forall bs, Utf8.encode s = Some bs -> length bs = byte_size s).
Proof.
  induction s as [|c s [IH1 IH2]].
  - split; [split; [now exists []|reflexivity]|].
    now intros bs [= <-].
  - cbn [forallb Utf8.encode]. split.
    + rewrite andb_true_iff, IH1, encode_char_scalar. split.
      * intros [[bc ->] [bs ->]]. eauto.
      * destruct (Utf8.encode_char c) as [bc|];
          [|intros [? ?]; discriminate].
        destruct (Utf8.encode s) as [bs|]; [|intros [? ?]; discriminate].
        eauto.
    + intros bs.
      destruct (Utf8.encode_char c) as [bc|] eqn:Ec; [|discriminate].
      destruct (Utf8.encode s) as [bs'|]; [|discriminate].
      intros [= <-]. rewrite length_app, (encode_char_length c bc Ec).
      rewrite (IH2 bs' eq_refl). reflexivity.
Qed.

(** X6. The codec encodes exactly the texts whose characters are code
    points other than surrogates, and then the number of bytes is the
    sum of the sizes of the characters. *)
Theorem encode_defined (s : str) :
  (forallb scalar s = true <-> exists bs, Utf8.encode s = Some bs)
  /\ (forall bs, Utf8.encode s = Some bs -> length bs = byte_size s).
Proof. apply utf8_encode_defined. Qed.

(** ** Line endings *)

Lemma universal_newlines_forall (P : codepoint -> Prop) :
  P 10%N ->
  forall s,
    (forall c, In c s -> c <> 13%N -> P c) ->
    Forall P (universal_newlines s).
Proof.
  intros H10 s. remember (length s) as n eqn:En. revert s En.
  induction n as [n IH] using lt_wf_ind. intros s En H.
  destruct s as [|c s]; [constructor|].
  cbn [universal_newlines].
  destruct (c =? 13)%N eqn:Ec.
  - constructor; [exact H10|].
    destruct s as [|d s']; [constructor|].
    destruct (d =? 10)%N.
    + apply (IH (length s')); [cbn in En; lia|reflexivity|].
      intros x Hx. apply H. now do 2 right.
    + apply (IH (length (d :: s'))); [cbn in En |- *; lia|reflexivity|].
      intros x Hx. apply H. now right.
  - apply N.eqb_neq in Ec. constructor; [apply H; [now left|exact Ec]|].
    apply (IH (length s)); [cbn in En; lia|reflexivity|].
    intros x Hx. apply H. now right.
Qed.

Lemma universal_newlines_no_cr (s : str) :
  ~ In 13%N (universal_newlines s).
Proof.
  pose proof (universal_newlines_forall (fun c => c <> 13%N)) as H.
  intros Hin. specialize (H ltac:(discriminate) s (fun c _ Hc => Hc)).
  rewrite Forall_forall in H. now apply (H _ Hin).
Qed.

Lemma universal_newlines_plain (s : str) :
  ~ In 13%N s -> universal_newlines s = s.
Proof.
  induction s as [|c s IH]; intros H; [reflexivity|].
  cbn [universal_newlines].
  destruct (c =? 13)%N eqn:Ec.
  - apply N.eqb_eq in Ec. subst c. exfalso. apply H. now left.
  - f_equal. apply IH. intros Hin. apply H. now right.
Qed.

Lemma output_newlines_cons (sep : str) (c : codepoint) (s : str) :
  output_newlines sep (c :: s)
  = (if (c =? 10)%N then sep else [c]) ++ output_newlines sep s.
Proof. reflexivity. Qed.

(** Reading back what was written gives the text that was written. *)
Lemma universal_output (sep s : str) :
  platform_linesep sep -> ~ In 13%N s ->
  universal_newlines (output_newlines sep s) = s.
Proof.
  intros Hsep. induction s as [|c s IH]; intros H; [reflexivity|].
  rewrite output_newlines_cons.
  assert (Hc : c <> 13%N) by (intros ->; apply H; now left).
  assert (Hs : ~ In 13%N s) by (intros Hin; apply H; now right).
  destruct (c =? 10)%N eqn:E10.
  - apply N.eqb_eq in E10. subst c.
    destruct Hsep as [-> | ->]; cbn [app universal_newlines N.eqb Pos.eqb];
      now rewrite IH.
  - cbn [app universal_newlines].
    apply N.eqb_neq in Hc. rewrite Hc. now rewrite IH.
Qed.

Lemma output_newlines_posix (s : str) : output_newlines [10%N] s = s.
Proof.
  induction s as [|c s IH]; [reflexivity|].
  rewrite output_newlines_cons, IH.
  destruct (c =? 10)%N eqn:E; [|reflexivity].
  apply N.eqb_eq in E. now subst c.
Qed.

Lemma output_newlines_forallb (p : codepoint -> bool) (sep s : str) :
  forallb p sep = true -> forallb p s = true ->
  forallb p (output_newlines sep s) = true.
Proof.
  intros Hsep. induction s as [|c s IH]; intros H; [reflexivity|].
  cbn [forallb] in H. apply andb_true_iff in H as [Hc Hs].
  rewrite output_newlines_cons, forallb_app, (IH Hs), andb_true_r.
  destruct (c =? 10)%N; [exact Hsep|]. cbn [forallb]. now rewrite Hc.
Qed.

(** ** Characters *)

Lemma count_single (c : codepoint) (s : str) :
  count [c] s = 0 <-> ~ In c s.
Proof.
  split.
  - intros H Hin. apply in_split in Hin as (l & r & ->).
    revert H. apply (occurs_count_pos [c] l r). discriminate.
  - intros H. destruct (Nat.eq_dec (count [c] s) 0) as [E|E]; [exact E|].
    apply count_pos_occurs in E as (l & r & ->); [|discriminate].
    exfalso. apply H. apply in_or_app. right. now left.
Qed.

(** An occurrence of a pattern brings all its characters. *)
Lemma count_pos_chars (p s : str) (c : codepoint) :
  p <> [] -> count p s <> 0 -> In c p -> In c s.
Proof.
  intros Hp H Hc. apply count_pos_occurs in H as (l & r & ->); trivial.
  apply in_or_app. right. apply in_or_app. now left.
Qed.

Lemma replace_forallb (p : codepoint -> bool) (old new : str) :
  old <> [] -> forallb p new = true ->
  forall s, forallb p s = true -> forallb p (replace old new s) = true.
Proof.
  intros Ho Hn.
  apply (scan_ind old Ho
           (fun s => forallb p s = true ->
                     forallb p (replace old new s) = true)).
  - now rewrite replace_nil.
  - intros r IH H. rewrite replace_match by assumption.
    rewrite forallb_app in *. apply andb_true_iff in H as [_ Hr].
    rewrite Hn. now apply IH.
  - intros c s Hs IH H. rewrite replace_miss by assumption.
    cbn [forallb] in *. apply andb_true_iff in H as [Hc Hr].
    rewrite Hc. now apply IH.
Qed.

Lemma run_steps_forallb (p : codepoint -> bool) (steps : list step) :
  forallb (fun st => nonempty (fst st) && forallb p (snd st)) steps = true ->
  forall s, forallb p s = true -> forallb p (run_steps steps s) = true.
Proof.
  induction steps as [|[old new] steps IH]; intros H s Hs; [exact Hs|].
  cbn [forallb fst snd] in H. apply andb_true_iff in H as [H Hrest].
  apply andb_true_iff in H as [Ho Hn]. apply nonempty_iff in Ho.
  rewrite run_steps_cons. cbn [fst snd].
  apply IH; [exact Hrest|]. now apply replace_forallb.
Qed.

Lemma pass_scalar :
  forallb (fun st => nonempty (fst st) && forallb scalar (snd st)) pass
  = true.
Proof. vm_compute. reflexivity. Qed.

Lemma pass_keeps_cr : frame_ok [13%N] pass = true.
Proof. vm_compute. reflexivity. Qed.

(** What is read is free of carriage returns and can be encoded. *)
Lemma read_text_clean (w : world) (content : str) :
  read_text w = Some content ->
  ~ In 13%N content /\ forallb scalar content = true.
Proof.
  unfold read_text.
  destruct (disk w) as [bs|]; [|discriminate].
  destruct (readable w); [|discriminate].
  destruct (Utf8.decode bs) as [t|] eqn:D; [|discriminate].
  intros [= <-]. split; [apply universal_newlines_no_cr|].
  apply utf8_encode_decode in D.
  assert (Ht : forallb scalar t = true)
    by (apply (utf8_encode_defined t); eauto).
  rewrite forallb_forall in Ht.
  apply forallb_forall. apply Forall_forall.
  apply universal_newlines_forall; [reflexivity|].
  intros c Hc _. now apply Ht.
Qed.

Lemma pass_clean (content : str) :
  ~ In 13%N content -> forallb scalar content = true ->
  ~ In 13%N (run_steps pass content)
  /\ forallb scalar (run_steps pass content) = true.
Proof.
  intros Hcr Hsc. split.
  - apply count_single. rewrite (frame_steps _ _ pass_keeps_cr).
    now apply count_single.
  - now apply run_steps_forallb; [exact pass_scalar|].
Qed.

(** ** Runs *)

Lemma reported_none (table : list (str * str)) (d : str) :
  (forall st, In st table -> count (fst st) d = 0) ->
  reported table d = [].
Proof.
  induction table as [|[emoji svg] table IH]; intros H; [reflexivity|].
  unfold reported. cbn [flat_map].
  pose proof (H (emoji, svg) (or_introl eq_refl)) as H0. cbn [fst] in H0.
  rewrite H0. cbn [Nat.ltb Nat.leb app].
  apply IH. intros st Hin. apply H. now right.
Qed.

Lemma remaining_line_none (d : str) :
  count mechanics d = 0 -> remaining_line d = [].
Proof.
  intros H. unfold remaining_line, remaining. rewrite H. reflexivity.
Qed.

Lemma platform_linesep_scalar (sep : str) :
  platform_linesep sep -> forallb scalar sep = true.
Proof. intros [-> | ->]; reflexivity. Qed.

(** Of the progress lines the first and the last are ASCII: whether
    all are printed depends on the lines of the report. *)
Lemma progress_printable (c : codepoint -> bool) (ls : list line) :
  forallb (printable c) (([Reading] ++ ls) ++ [Writing])
  = forallb (printable c) ls.
Proof.
  rewrite forallb_app. cbn [app forallb].
  change (printable c Reading) with true.
  change (printable c Writing) with true.
  cbn [andb]. apply andb_true_r.
Qed.

(** Of the summary only the last line has characters beyond ASCII. *)
Lemma summary_printable (c : codepoint -> bool) (o n : nat) (d : Z) :
  forallb (printable c) [Done o n; Difference d; Complete; Skipped]
  = printable c Skipped.
Proof.
  cbn [forallb].
  change (printable c (Done o n)) with true.
  change (printable c (Difference d)) with true.
  change (printable c Complete) with true.
  cbn [andb]. apply andb_true_r.
Qed.

Lemma summary_printed (c : codepoint -> bool) (o n : nat) (d : Z) :
  printed c [Done o n; Difference d; Complete; Skipped]
  = [Done o n; Difference d; Complete]
    ++ (if printable c Skipped then [Skipped] else []).
Proof.
  cbn [printed].
  change (printable c (Done o n)) with true.
  change (printable c (Difference d)) with true.
  change (printable c Complete) with true.
  destruct (printable c Skipped); reflexivity.
Qed.

(** What was read and transformed can be encoded. *)
Lemma encode_output (w : world) (content : str) :
  read_text w = Some content -> forallb scalar (linesep w) = true ->
  exists buffer,
    Utf8.encode (output_newlines (linesep w) (run_steps pass content))
    = Some buffer.
Proof.
  intros Hr Hsep.
  destruct (read_text_clean w content Hr) as [Hcr Hsc].
  destruct (pass_clean content Hcr Hsc) as [_ Hsc'].
  pose proof (output_newlines_forallb scalar (linesep w) _ Hsep Hsc') as Ho.
  now apply (utf8_encode_defined _) in Ho.
Qed.

(** The run, case by case. *)
Lemma main_read_error (w : world) :
  read_text w = None ->
  main w
  = {| final_disk := disk w; stdout := [Reading]; exit := ReadError;
       written := [] |}.
Proof. intros Hr. unfold main. rewrite Hr. reflexivity. Qed.

Lemma main_print_refused (w : world) (content : str) :
  read_text w = Some content ->
  forallb (printable (console w))
          (reported replacements content ++ remaining_line content)
  = false ->
  main w
  = {| final_disk := disk w;
       stdout := printed (console w)
                   (([Reading] ++ reported replacements content
                     ++ remaining_line content) ++ [Writing]);
       exit := PrintError; written := [] |}.
Proof.
  intros Hr Hp. unfold main. rewrite Hr, transform_state_log. cbv zeta.
  rewrite progress_printable, Hp. reflexivity.
Qed.

Lemma main_write_denied (w : world) (content : str) :
  read_text w = Some content ->
  forallb (printable (console w))
          (reported replacements content ++ remaining_line content)
  = true ->
  writable w = false ->
  main w
  = {| final_disk := disk w;
       stdout := ([Reading] ++ reported replacements content
                  ++ remaining_line content) ++ [Writing];
       exit := WriteError; written := [] |}.
Proof.
  intros Hr Hp Hw. unfold main. rewrite Hr, transform_state_log. cbv zeta.
  rewrite progress_printable, Hp, Hw. reflexivity.
Qed.

Lemma main_unencodable (w : world) (content : str) :
  read_text w = Some content ->
  forallb (printable (console w))
          (reported replacements content ++ remaining_line content)
  = true ->
  writable w = true ->
  Utf8.encode (output_newlines (linesep w) (run_steps pass content))
  = None ->
  main w
  = {| final_disk := Some [];
       stdout := ([Reading] ++ reported replacements content
                  ++ remaining_line content) ++ [Writing];
       exit := WriteError; written := [] |}.
Proof.
  intros Hr Hp Hw Hb. unfold main. rewrite Hr, transform_state_log.
  cbv zeta. rewrite progress_printable, Hp, Hw, Hb. reflexivity.
Qed.

Lemma main_write_fault (w : world) (content : str) (buffer : bytes)
      (n : nat) :
  read_text w = Some content ->
  forallb (printable (console w))
          (reported replacements content ++ remaining_line content)
  = true ->
  writable w = true ->
  Utf8.encode (output_newlines (linesep w) (run_steps pass content))
  = Some buffer ->
  write_fault w = Some n ->
  main w
  = {| final_disk := Some (firstn n buffer);
       stdout := ([Reading] ++ reported replacements content
                  ++ remaining_line content) ++ [Writing];
       exit := WriteError; written := [] |}.
Proof.
  intros Hr Hp Hw Hb Hf. unfold main. rewrite Hr, transform_state_log.
  cbv zeta. rewrite progress_printable, Hp, Hw, Hb, Hf. reflexivity.
Qed.

Lemma main_written (w : world) (content : str) (buffer : bytes) :
  read_text w = Some content ->
  forallb (printable (console w))
          (reported replacements content ++ remaining_line content)
  = true ->
  writable w = true ->
  Utf8.encode (output_newlines (linesep w) (run_steps pass content))
  = Some buffer ->
  write_fault w = None ->
  main w
  = {| final_disk := Some buffer;
       stdout := (([Reading] ++ reported replacements content
                   ++ remaining_line content) ++ [Writing])
                 ++ [Done (length content)
                          (length (run_steps pass content));
                     Difference
                       (Z.of_nat (length (run_steps pass content))
                        - Z.of_nat (length content));
                     Complete]
                 ++ (if printable (console w) Skipped then [Skipped]
                     else []);
       exit := if printable (console w) Skipped then Finished
               else PrintError;
       written := [buffer] |}.
Proof.
  intros Hr Hp Hw Hb Hf. unfold main. rewrite Hr, transform_state_log.
  cbv zeta.
  rewrite progress_printable, Hp, Hw, Hb, Hf, summary_printable,
    summary_printed.
  reflexivity.
Qed.

(** A run that reads the file, prints every line and writes the file. *)
Lemma main_finished (w : world) (content : str) :
  read_text w = Some content -> writable w = true ->
  forallb scalar (linesep w) = true ->
  forallb (printable (console w))
          (reported replacements content ++ remaining_line content)
  = true ->
  printable (console w) Skipped = true ->
  write_fault w = None ->
  exists buffer,
    Utf8.encode (output_newlines (linesep w) (run_steps pass content))
    = Some buffer
    /\ main w
       = {| final_disk := Some buffer;
            stdout := [Reading] ++ reported replacements content
                      ++ remaining_line content
                      ++ [Writing;
                          Done (length content)
                               (length (run_steps pass content));
                          Difference
                            (Z.of_nat (length (run_steps pass content))
                             - Z.of_nat (length content));
                          Complete; Skipped];
            exit := Finished;
            written := [buffer] |}.
Proof.
  intros Hr Hw Hsep Hp Hs Hf.
  destruct (encode_output w content Hr Hsep) as [buffer Hb].
  exists buffer. split; [exact Hb|].
  rewrite (main_written w content buffer Hr Hp Hw Hb Hf), Hs.
  f_equal. now rewrite <- !app_assoc.
Qed.

(** X7. A run that can read the file and may write it, on a console
    that has the symbols of the lines it prints and with a write that
    does not fail, finishes: the encoder accepts the transformed text,
    the file then holds exactly its encoding, and the lines printed are
    the report of the symbols found followed by the summary with the
    two lengths and their difference. *)
Theorem run_finishes (w : world) (content : str) :
  read_text w = Some content -> writable w = true ->
  forallb scalar (linesep w) = true ->
  forallb (printable (console w))
          (reported replacements content ++ remaining_line content)
  = true ->
  printable (console w) Skipped = true ->
  write_fault w = None ->
  exists content' buffer,
    transform content = Some content'
    /\ Utf8.encode (output_newlines (linesep w) content') = Some buffer
    /\ Utf8.decode buffer = Some (output_newlines (linesep w) content')
    /\ main w
       = {| final_disk := Some buffer;
            stdout := [Reading] ++ reported replacements content
                      ++ remaining_line content
                      ++ [Writing;
                          Done (length content) (length content');
                          Difference (Z.of_nat (length content')
                                      - Z.of_nat (length content));
                          Complete; Skipped];
            exit := Finished;
            written := [buffer] |}.
Proof.
  intros Hr Hw Hsep Hp Hs Hf.
  destruct (main_finished w content Hr Hw Hsep Hp Hs Hf)
    as (buffer & Hb & Hm).
  exists (run_steps pass content), buffer.
  split; [apply transform_run|]. split; [exact Hb|].
  split; [now apply utf8_decode_encode|exact Hm].
Qed.

Lemma run_finishes_witness :
  exists content' buffer,
    transform (lit "🔗🔗🔗") = Some content'
    /\ Utf8.encode (output_newlines (linesep three_links) content')
       = Some buffer
    /\ exit (main three_links) = Finished
    /\ final_disk (main three_links) = Some buffer.
Proof.
  destruct (run_finishes three_links (lit "🔗🔗🔗"))
    as (content' & buffer & Ht & Hb & _ & Hm);
    [reflexivity|reflexivity|reflexivity|vm_compute; reflexivity
    |vm_compute; reflexivity|reflexivity|].
  exists content', buffer. rewrite Hm. cbn [exit final_disk].
  split; [exact Ht|]. split; [exact Hb|]. split; reflexivity.
Defined.

(** X8. How a run ends.  With a read error exactly when the read fails,
    the file then left as it was; never with an error of [re].  When
    the read succeeds: if the console lacks a character of a line of
    the report, with the encoding error of that [print], before the
    file is opened, so the file is left as it was; otherwise, if the
    file may not be written, with a write error and the file as it was;
    otherwise the text is encoded and, if the write fails, the run ends
    with a write error and the file holds the bytes written before the
    failure; if it does not fail, the file holds the whole buffer and
    the run finishes when the console has the symbols of the last line
    and ends with the encoding error of that line when it has not. *)
Theorem exit_status (w : world) :
  (exit (main w) = ReadError <-> read_text w = None)
  /\ exit (main w) <> ReError
  /\ (read_text w = None ->
      final_disk (main w) = disk w /\ written (main w) = [])
  /\ (forall content,
         read_text w = Some content ->
         let report :=
           reported replacements content ++ remaining_line content in
         (forallb (printable (console w)) report = false ->
          exit (main w) = PrintError
          /\ final_disk (main w) = disk w /\ written (main w) = [])
         /\ (forallb (printable (console w)) report = true ->
             writable w = false ->
             exit (main w) = WriteError
             /\ final_disk (main w) = disk w /\ written (main w) = [])
         /\ (forallb (printable (console w)) report = true ->
             writable w = true ->
             forallb scalar (linesep w) = true ->
             exists buffer,
               Utf8.encode (output_newlines (linesep w)
                                            (run_steps pass content))
               = Some buffer
               /\ match write_fault w with
                  | Some n =>
                    exit (main w) = WriteError
                    /\ final_disk (main w) = Some (firstn n buffer)
                    /\ written (main w) = []
                  | None =>
                    exit (main w)
                    = (if printable (console w) Skipped then Finished
                       else PrintError)
                    /\ final_disk (main w) = Some buffer
                    /\ written (main w) = [buffer]
                  end)).
Proof.
  assert (Hcases :
            forall content,
              read_text w = Some content ->
              exit (main w) <> ReadError /\ exit (main w) <> ReError).
  { intros content Hr.
    destruct (forallb (printable (console w))
                      (reported replacements content
                       ++ remaining_line content)) eqn:Hp;
      [|rewrite (main_print_refused w content Hr Hp); cbn [exit];
        split; discriminate].
    destruct (writable w) eqn:Hw;
      [|rewrite (main_write_denied w content Hr Hp Hw); cbn [exit];
        split; discriminate].
    destruct (Utf8.encode (output_newlines (linesep w)
                                           (run_steps pass content)))
      as [buffer|] eqn:Hb;
      [|rewrite (main_unencodable w content Hr Hp Hw Hb); cbn [exit];
        split; discriminate].
    destruct (write_fault w) as [n|] eqn:Hf.
    - rewrite (main_write_fault w content buffer n Hr Hp Hw Hb Hf).
      cbn [exit]. split; discriminate.
    - rewrite (main_written w content buffer Hr Hp Hw Hb Hf).
      cbn [exit]. destruct (printable (console w) Skipped);
        split; discriminate. }
  split; [|split; [|split]].
  - split.
    + destruct (read_text w) as [content|] eqn:Hr; [|reflexivity].
      intros H. now destruct (proj1 (Hcases content eq_refl)).
    + intros Hr. rewrite (main_read_error w Hr). reflexivity.
  - destruct (read_text w) as [content|] eqn:Hr.
    + exact (proj2 (Hcases content eq_refl)).
    + rewrite (main_read_error w Hr). cbn [exit]. discriminate.
  - intros Hr. rewrite (main_read_error w Hr). split; reflexivity.
  - intros content Hr report. subst report. split; [|split].
    + intros Hp. rewrite (main_print_refused w content Hr Hp).
      repeat split.
    + intros Hp Hw. rewrite (main_write_denied w content Hr Hp Hw).
      repeat split.
    + intros Hp Hw Hsep.
      destruct (encode_output w content Hr Hsep) as [buffer Hb].
      exists buffer. split; [exact Hb|].
      destruct (write_fault w) as [n|] eqn:Hf.
      * rewrite (main_write_fault w content buffer n Hr Hp Hw Hb Hf).
        repeat split.
      * rewrite (main_written w content buffer Hr Hp Hw Hb Hf).
        repeat split.
Qed.

Lemma exit_status_witness :
  (exit (main three_links_ascii) = PrintError
   /\ final_disk (main three_links_ascii) = disk three_links_ascii
   /\ written (main three_links_ascii) = [])
  /\ exists buffer,
      Utf8.encode (output_newlines (linesep three_links_full)
                                   (run_steps pass (lit "🔗🔗🔗")))
      = Some buffer
      /\ exit (main three_links_full) = WriteError
      /\ final_disk (main three_links_full) = Some (firstn 5 buffer)
      /\ written (main three_links_full) = [].
Proof.
  split.
  - apply (proj1 (proj2 (proj2 (proj2 (exit_status three_links_ascii)))
                        (lit "🔗🔗🔗") eq_refl)).
    vm_compute. reflexivity.
  - apply (proj2 (proj2 (proj2 (proj2 (proj2
             (exit_status three_links_full))) (lit "🔗🔗🔗") eq_refl)));
      [vm_compute; reflexivity|reflexivity|reflexivity].
Defined.

Lemma read_text_readable (w : world) (content : str) :
  read_text w = Some content -> readable w = true.
Proof.
  unfold read_text.
  destruct (disk w) as [bs|]; [|discriminate].
  destruct (readable w); [reflexivity|discriminate].
Qed.

(** A finished run has read the file, printed every line and written
    the file. *)
Lemma finished_inv (w : world) :
  exit (main w) = Finished ->
  exists content,
    read_text w = Some content /\ writable w = true
    /\ forallb (printable (console w))
               (reported replacements content ++ remaining_line content)
       = true
    /\ printable (console w) Skipped = true
    /\ write_fault w = None.
Proof.
  destruct (read_text w) as [content|] eqn:Hr;
    [|rewrite (main_read_error w Hr); cbn [exit]; discriminate].
  destruct (forallb (printable (console w))
                    (reported replacements content
                     ++ remaining_line content)) eqn:Hp;
    [|rewrite (main_print_refused w content Hr Hp); cbn [exit];
      discriminate].
  destruct (writable w) eqn:Hw;
    [|rewrite (main_write_denied w content Hr Hp Hw); cbn [exit];
      discriminate].
  destruct (Utf8.encode (output_newlines (linesep w)
                                         (run_steps pass content)))
    as [buffer|] eqn:Hb;
    [|rewrite (main_unencodable w content Hr Hp Hw Hb); cbn [exit];
      discriminate].
  destruct (write_fault w) as [n|] eqn:Hf.
  - rewrite (main_write_fault w content buffer n Hr Hp Hw Hb Hf).
    cbn [exit]. discriminate.
  - rewrite (main_written w content buffer Hr Hp Hw Hb Hf). cbn [exit].
    destruct (printable (console w) Skipped) eqn:Hs; [|discriminate].
    intros _. exists content.
    split; [reflexivity|]. split; [reflexivity|].
    split; [exact Hp|]. split; reflexivity.
Qed.

(** X9. A second run changes nothing: after a finished run with the
    line separator of the platform, running the script again on the
    file it left finds no symbol, prints no replacement, reports the
    difference 0 and writes the same bytes. *)
Theorem second_run_changes_nothing (w : world) :
  exit (main w) = Finished -> platform_linesep (linesep w) ->
  exists n,
    main (after w)
    = {| final_disk := final_disk (main w);
         stdout := [Reading; Writing; Done n n; Difference 0;
                    Complete; Skipped];
         exit := Finished;
         written := written (main w) |}.
Proof.
  intros Hfin Hsep.
  destruct (finished_inv w Hfin) as (content & Hr & Hw & Hp & Hs & Hf).
  pose proof (platform_linesep_scalar _ Hsep) as Hsc.
  destruct (main_finished w content Hr Hw Hsc Hp Hs Hf)
    as (b1 & Hb & Hm).
  pose proof (utf8_decode_encode _ _ Hb) as Hd.
  destruct (read_text_clean w content Hr) as [Hcr Hscal].
  destruct (pass_clean content Hcr Hscal) as [Hcr' _].
  pose proof (read_text_readable w content Hr) as Hrd.
  assert (Hr2 : read_text (after w) = Some (run_steps pass content)).
  { unfold read_text, after. cbn [disk readable].
    rewrite Hm. cbn [final_disk]. rewrite Hrd, Hd. cbn [option_map].
    rewrite universal_output by assumption. reflexivity. }
  assert (Hrn : reported replacements (run_steps pass content) = []).
  { apply reported_none. intros st Hin. apply no_pattern_left.
    unfold pass. apply in_or_app. left. exact Hin. }
  assert (Hrl : remaining_line (run_steps pass content) = []).
  { apply remaining_line_none. apply mechanics_gone. }
  assert (Hp2 : forallb (printable (console (after w)))
                        (reported replacements (run_steps pass content)
                         ++ remaining_line (run_steps pass content))
                = true) by (rewrite Hrn, Hrl; reflexivity).
  destruct (main_finished (after w) _ Hr2 Hw Hsc Hp2 Hs Hf)
    as (b2 & Hb2 & Hm2).
  assert (Hid : run_steps pass (run_steps pass content)
                = run_steps pass content)
    by (apply run_absent; intros st; apply no_pattern_left).
  rewrite Hid in Hb2, Hm2.
  change (linesep (after w)) with (linesep w) in Hb2.
  assert (Eb : b2 = b1) by congruence. subst b2.
  exists (length (run_steps pass content)).
  rewrite Hm2, Hm. cbn [final_disk written]. f_equal.
  rewrite Hrn, Hrl. cbn [app]. rewrite Z.sub_diag. reflexivity.
Qed.

Lemma second_run_changes_nothing_witness :
  exists n,
    main (after three_links)
    = {| final_disk := final_disk (main three_links);
         stdout := [Reading; Writing; Done n n; Difference 0;
                    Complete; Skipped];
         exit := Finished;
         written := written (main three_links) |}.
Proof.
  apply second_run_changes_nothing; [vm_compute; reflexivity|now left].
Defined.

(** X10. What is read from the file has no carriage return, whatever
    line endings the file has, and consists of code points the codec
    can encode again. *)
Theorem read_text_normalized (w : world) (content : str) :
  read_text w = Some content ->
  ~ In 13%N content /\ forallb scalar content = true.
Proof. apply read_text_clean. Qed.

Lemma read_text_normalized_witness :
  ~ In 13%N (lit "🔗🔗🔗") /\ forallb scalar (lit "🔗🔗🔗") = true.
Proof. apply (read_text_normalized three_links). reflexivity. Defined.

(** ** Symbols and characters amid arbitrary text *)

Lemma table_tracked :
  forallb (fun '(emoji, svg) =>
             match track pass emoji with
             | Some y => str_eqb y svg
             | None => false
             end)
          replacements = true.
Proof. vm_compute. reflexivity. Qed.

(** X11. Every occurrence of a symbol of the table is replaced where it
    stands by its markup, and the text before and after it is
    transformed as it would be alone. *)
Theorem symbol_in_context (emoji svg l r : str) :
  In (emoji, svg) replacements ->
  exists l' r',
    transform l = Some l' /\ transform r = Some r'
    /\ transform (l ++ emoji ++ r) = Some (l' ++ svg ++ r').
Proof.
  intros Hin. pose proof table_tracked as H.
  rewrite forallb_forall in H. specialize (H _ Hin). cbn beta iota in H.
  destruct (track pass emoji) as [y|] eqn:E; [|discriminate].
  apply str_eqb_eq in H. subst y.
  exists (run_steps pass l), (run_steps pass r).
  split; [apply transform_run|]. split; [apply transform_run|].
  exact (transform_around _ _ E l r).
Qed.

Lemma symbol_in_context_witness :
  exists l' r',
    transform (lit "a⚔️") = Some l' /\ transform (lit "️b") = Some r'
    /\ transform (lit "a⚔️" ++ lit "✨" ++ lit "️b")
       = Some (l' ++ svg14 "icons/misc/sparkles.svg" ++ r').
Proof.
  apply symbol_in_context. do 15 right. left. reflexivity.
Defined.

Lemma track_instance :
  track pass (lit ": '⚙️ Instance</span>'") = Some (snd instance_rule).
Proof. vm_compute. reflexivity. Qed.

(** X12. Wherever the literal of the third rule stands in a document,
    the output has it with the colon, the quotes and the text
    [ Instance</span>] unchanged and with the symbol replaced by the
    image tag of the rule's template. *)
Theorem instance_literal_in_context (l r : str) :
  exists l' r',
    transform l = Some l' /\ transform r = Some r'
    /\ transform (l ++ lit ": '⚙️ Instance</span>'" ++ r)
       = Some (l' ++ (lit ": '" ++ mechanics_raw
                      ++ lit " Instance</span>'") ++ r').
Proof.
  exists (run_steps pass l), (run_steps pass r).
  split; [apply transform_run|]. split; [apply transform_run|].
  exact (transform_around _ _ track_instance l r).
Qed.

Lemma clash_free_foreign (c : codepoint) (w : str) :
  ~ In c w -> clash_free w [c] = true.
Proof.
  induction w as [|x w IH]; intros H; [reflexivity|].
  cbn [clash_free]. rewrite IH by (intros Hin; apply H; now right).
  assert (Hx : (x =? c)%N = false)
    by (apply N.eqb_neq; intros ->; apply H; now left).
  unfold comparable. cbn [startswith].
  rewrite Hx, (N.eqb_sym c x), Hx. reflexivity.
Qed.

Lemma isolated_foreign (c : codepoint) (old : str) :
  old <> [] -> ~ In c old ->
  str_eqb old [c] = false /\ isolated old [c] = true.
Proof.
  intros Ho H. destruct old as [|a o]; [contradiction|].
  assert (Ha : (a =? c)%N = false)
    by (apply N.eqb_neq; intros ->; apply H; now left).
  split.
  - cbn [str_eqb]. now rewrite Ha.
  - unfold isolated. cbn [nonempty tl clash_free andb].
    rewrite clash_free_foreign by (intros Hin; apply H; now right).
    unfold comparable. cbn [startswith].
    rewrite Ha, (N.eqb_sym c a), Ha. reflexivity.
Qed.

Lemma track_foreign (c : codepoint) (steps : list step) :
  foreign c steps = true -> track steps [c] = Some [c].
Proof.
  induction steps as [|[old new] steps IH]; intros H; [reflexivity|].
  cbn [foreign forallb fst] in H. apply andb_true_iff in H as [H Hrest].
  apply andb_true_iff in H as [Ho Hc].
  apply nonempty_iff in Ho. apply negb_true_iff in Hc.
  assert (Hn : ~ In c old).
  { intros Hin.
    assert (E : existsb (N.eqb c) old = true).
    { apply existsb_exists. exists c. split; [exact Hin|apply N.eqb_refl]. }
    congruence. }
  destruct (isolated_foreign c old Ho Hn) as [E1 E2].
  cbn [track]. rewrite E1, E2. now apply IH.
Qed.

(** X13. A character that is in none of the patterns splits the work:
    the text before it and the text after it are transformed as they
    would be alone.  The line feed is such a character, so the pass
    treats every line on its own. *)
Theorem foreign_character_splits (c : codepoint) (l r : str) :
  foreign c pass = true ->
  exists l' r',
    transform l = Some l' /\ transform r = Some r'
    /\ transform (l ++ [c] ++ r) = Some (l' ++ [c] ++ r').
Proof.
  intros H. exists (run_steps pass l), (run_steps pass r).
  split; [apply transform_run|]. split; [apply transform_run|].
  exact (transform_around _ _ (track_foreign c pass H) l r).
Qed.

Lemma foreign_character_splits_witness :
  exists l' r',
    transform (lit "icon: '⚙️") = Some l' /\ transform (lit "'") = Some r'
    /\ transform (lit "icon: '⚙️" ++ [10%N] ++ lit "'")
       = Some (l' ++ [10%N] ++ r').
Proof.
  apply foreign_character_splits. vm_compute. reflexivity.
Defined.

(** ** Documents without symbols *)

Lemma symbol_free_pass (d : str) :
  forallb (fun st => count (fst st) d =? 0)
          (replacements ++ [catch_all_step]) = true ->
  (forall st, In st replacements -> count (fst st) d = 0)
  /\ count mechanics d = 0
  /\ run_steps pass d = d.
Proof.
  intros H. rewrite forallb_forall in H.
  assert (Ht : forall st, In st replacements -> count (fst st) d = 0).
  { intros st Hin. apply Nat.eqb_eq. apply H. apply in_or_app. now left. }
  assert (Hm : count mechanics d = 0).
  { apply Nat.eqb_eq. apply (H catch_all_step).
    apply in_or_app. right. now left. }
  split; [exact Ht|]. split; [exact Hm|].
  apply run_absent. intros st. unfold pass. rewrite !in_app_iff.
  intros [Hin|[Hin|[<-|[]]]].
  - now apply Ht.
  - destruct (constrained_contains_mechanics st Hin) as (a & b & ->).
    apply count_zero_within; [exact mechanics_nonempty|exact Hm].
  - exact Hm.
Qed.

Lemma symbol_free_state (d : str) (out : list line) :
  forallb (fun st => count (fst st) d =? 0)
          (replacements ++ [catch_all_step]) = true ->
  transform_state (d, out) = Some (d, out).
Proof.
  intros H. destruct (symbol_free_pass d H) as (Ht & Hm & Hd).
  rewrite transform_state_log, Hd, reported_none, remaining_line_none
    by assumption.
  now rewrite !app_nil_r.
Qed.

(** X14. A document in which no symbol of the table and no mechanics
    symbol occurs is left as it is, and nothing is reported. *)
Theorem symbol_free_unchanged (d : str) (out : list line) :
  forallb (fun st => count (fst st) d =? 0)
          (replacements ++ [catch_all_step]) = true ->
  transform_state (d, out) = Some (d, out) /\ transform d = Some d.
Proof.
  intros H. split; [now apply symbol_free_state|].
  unfold transform. now rewrite symbol_free_state.
Qed.

Lemma symbol_free_unchanged_witness :
  transform (lit "const a = '🎭 ⚠️ ok';") = Some (lit "const a = '🎭 ⚠️ ok';").
Proof.
  apply (symbol_free_unchanged (lit "const a = '🎭 ⚠️ ok';") []).
  vm_compute. reflexivity.
Defined.

Lemma symbols_not_ascii :
  forallb (fun st => nonempty (fst st)
                     && existsb (fun c => negb (ascii c)) (fst st))
          (replacements ++ [catch_all_step]) = true.
Proof. vm_compute. reflexivity. Qed.

Lemma ascii_symbol_free (d : str) :
  forallb ascii d = true ->
  forallb (fun st => count (fst st) d =? 0)
          (replacements ++ [catch_all_step]) = true.
Proof.
  intros Hd. apply forallb_forall. intros st Hin.
  pose proof symbols_not_ascii as H. rewrite forallb_forall in H.
  specialize (H st Hin). apply andb_true_iff in H as [Hne Hex].
  apply nonempty_iff in Hne. apply existsb_exists in Hex as (c & Hc & Hna).
  apply Nat.eqb_eq.
  destruct (Nat.eq_dec (count (fst st) d) 0) as [E|E]; [exact E|].
  exfalso. pose proof (count_pos_chars (fst st) d c Hne E Hc) as Hcd.
  rewrite forallb_forall in Hd. rewrite (Hd c Hcd) in Hna. discriminate.
Qed.

(** X15. A text of ASCII characters only is left as it is, and nothing
    is reported. *)
Theorem ascii_text_unchanged (d : str) (out : list line) :
  forallb ascii d = true ->
  transform_state (d, out) = Some (d, out) /\ transform d = Some d.
Proof.
  intros H. pose proof (ascii_symbol_free d H) as Hs.
  split; [now apply symbol_free_state|].
  unfold transform. now rewrite symbol_free_state.
Qed.

Lemma ascii_text_unchanged_witness :
  transform (lit "icon: 'x' <img src=a>") = Some (lit "icon: 'x' <img src=a>").
Proof.
  apply (ascii_text_unchanged (lit "icon: 'x' <img src=a>") []).
  vm_compute. reflexivity.
Defined.

(** X16. A file without carriage returns in which none of the symbols
    occurs is written back byte for byte where the line separator is
    the line feed and the write does not fail: the run reports no
    replacement, equal sizes and the difference 0.  It finishes when
    the console has the symbols of the last line; when it has not, the
    run ends with the encoding error of that line, the file already
    written. *)
Theorem plain_file_rewritten_unchanged (w : world) (bs : bytes) (d : str) :
  disk w = Some bs -> readable w = true -> writable w = true ->
  linesep w = [10%N] -> write_fault w = None ->
  Utf8.decode bs = Some d -> ~ In 13%N d ->
  forallb (fun st => count (fst st) d =? 0)
          (replacements ++ [catch_all_step]) = true ->
  main w
  = {| final_disk := Some bs;
       stdout := [Reading; Writing; Done (length d) (length d);
                  Difference 0; Complete]
                 ++ (if printable (console w) Skipped then [Skipped]
                     else []);
       exit := if printable (console w) Skipped then Finished
               else PrintError;
       written := [bs] |}.
Proof.
  intros Hd Hrd Hw Hsep Hf Hdec Hcr Hfree.
  assert (Hr : read_text w = Some d).
  { unfold read_text. rewrite Hd, Hrd, Hdec. cbn [option_map].
    now rewrite universal_newlines_plain. }
  destruct (symbol_free_pass d Hfree) as (Ht & Hmech & Hid).
  pose proof (reported_none replacements d Ht) as Hrn.
  pose proof (remaining_line_none d Hmech) as Hrl.
  assert (Hp : forallb (printable (console w))
                       (reported replacements d ++ remaining_line d)
               = true) by (rewrite Hrn, Hrl; reflexivity).
  assert (Hb : Utf8.encode (output_newlines (linesep w)
                                            (run_steps pass d))
               = Some bs).
  { rewrite Hid, Hsep, output_newlines_posix.
    exact (utf8_encode_decode bs d Hdec). }
  rewrite (main_written w d bs Hr Hp Hw Hb Hf), Hid, Hrn, Hrl.
  cbn [app]. now rewrite Z.sub_diag.
Qed.

Lemma plain_file_rewritten_unchanged_witness :
  (final_disk (main plain_file) = disk plain_file
   /\ exit (main plain_file) = Finished)
  /\ (final_disk (main plain_file_ascii) = disk plain_file_ascii
      /\ exit (main plain_file_ascii) = PrintError
      /\ stdout (main plain_file_ascii)
         = [Reading; Writing; Done 17 17; Difference 0; Complete]).
Proof.
  split.
  - rewrite (plain_file_rewritten_unchanged plain_file
               (list_byte_of_string "const a = 1; // 🎭")
               (lit "const a = 1; // 🎭")).
    + split; reflexivity.
    + reflexivity.
    + reflexivity.
    + reflexivity.
    + reflexivity.
    + reflexivity.
    + vm_compute. reflexivity.
    + vm_compute. intuition discriminate.
    + vm_compute. reflexivity.
  - rewrite (plain_file_rewritten_unchanged plain_file_ascii
               (list_byte_of_string "const a = 1; // 🎭")
               (lit "const a = 1; // 🎭")).
    + repeat split.
    + reflexivity.
    + reflexivity.
    + reflexivity.
    + reflexivity.
    + reflexivity.
    + vm_compute. reflexivity.
    + vm_compute. intuition discriminate.
    + vm_compute. reflexivity.
Defined.

(** ** The rules without their literals *)

Lemma idle_steps (steps : list step) :
  forall pre s,
    independent pre steps = true ->
    (forall st, In st steps -> count (fst st) s = 0) ->
    run_steps steps (run_steps pre s) = run_steps pre s.
Proof.
  induction steps as [|[old new] rest IH]; intros pre s Hi H; [reflexivity|].
  cbn [independent fst] in Hi. apply andb_true_iff in Hi as [Hf Hi].
  rewrite run_steps_cons. cbn [fst snd].
  assert (E : replace old new (run_steps pre s) = run_steps pre s).
  { apply replace_absent. rewrite (frame_steps old pre Hf s).
    apply (H (old, new)). now left. }
  rewrite E.
  assert (H' : forall st, In st rest -> count (fst st) s = 0)
    by (intros st Hin; apply H; now right).
  pose proof (IH _ s Hi H') as E2.
  rewrite run_steps_snoc, E in E2. exact E2.
Qed.

Lemma constrained_independent :
  independent replacements constrained_steps = true.
Proof. vm_compute. reflexivity. Qed.

(** X17. In a document in which none of the four literals occurs the
    four rules change nothing: the output is that of the table followed
    by the final replacement, so every mechanics symbol gets the markup
    with plain quotes. *)
Theorem rules_idle_without_literals (d : str) :
  constrained_matches d = 0 ->
  transform d = Some (run_steps (replacements ++ [catch_all_step]) d).
Proof.
  intros H. rewrite transform_run. f_equal.
  unfold pass. rewrite !run_steps_app. f_equal.
  apply (idle_steps constrained_steps replacements d
           constrained_independent).
  unfold constrained_matches, constrained_steps in H.
  cbn [map fst] in H. unfold list_sum in H. cbn [fold_right] in H.
  intros st [<-|[<-|[<-|[<-|[]]]]]; cbn [fst]; lia.
Qed.

Lemma rules_idle_without_literals_witness :
  transform (lit "x ⚙️ y")
  = Some (run_steps (replacements ++ [catch_all_step]) (lit "x ⚙️ y")).
Proof.
  apply rules_idle_without_literals. vm_compute. reflexivity.
Defined.

(** ** The size of the file *)

(** X18. For a file without carriage returns, where the line separator
    is the line feed, on a console that has the symbols of the lines of
    the report and with a write that does not fail, the file the run
    leaves is longer than the file it found by the byte growth of the
    text: for every step the occurrences of its pattern times the bytes
    the step adds. *)
Theorem file_growth (w : world) (bs : bytes) (d : str) :
  disk w = Some bs -> readable w = true -> writable w = true ->
  linesep w = [10%N] ->
  forallb (printable (console w))
          (reported replacements d ++ remaining_line d) = true ->
  write_fault w = None ->
  Utf8.decode bs = Some d -> ~ In 13%N d ->
  exists buffer,
    final_disk (main w) = Some buffer
    /\ length buffer = length bs + growth byte_size d.
Proof.
  intros Hd Hrd Hw Hsep Hp Hf Hdec Hcr.
  assert (Hr : read_text w = Some d).
  { unfold read_text. rewrite Hd, Hrd, Hdec. cbn [option_map].
    now rewrite universal_newlines_plain. }
  assert (Hsc : forallb scalar (linesep w) = true)
    by (rewrite Hsep; reflexivity).
  destruct (encode_output w d Hr Hsc) as [buffer Hb].
  exists buffer.
  split; [rewrite (main_written w d buffer Hr Hp Hw Hb Hf); reflexivity|].
  rewrite Hsep, output_newlines_posix in Hb.
  rewrite (proj2 (utf8_encode_defined _) buffer Hb).
  rewrite (proj2 (utf8_encode_defined d) bs (utf8_encode_decode bs d Hdec)).
  apply size_pass; [apply byte_size_app|exact pass_grows_bytes].
Qed.

Lemma file_growth_witness :
  exists buffer,
    final_disk (main three_links) = Some buffer
    /\ length buffer
       = length (list_byte_of_string "🔗🔗🔗")
         + growth byte_size (lit "🔗🔗🔗").
Proof.
  apply (file_growth three_links (list_byte_of_string "🔗🔗🔗")
           (lit "🔗🔗🔗")); try reflexivity.
  vm_compute. intuition discriminate.
Defined.
